(** * Seismic signal-processing engine: a shallow embedding and its properties

    The development follows the four processing scripts of the repository:

    - [001_01_convert_seismic.py]  (peak values, NIED component trimming),
    - [002_01_calculate_fourier.py]  (Fourier amplitude spectrum),
    - [003_01_calculate_velocity_and_displacement.py]  (FFT integration, peaks),
    - [004_01_calculate_response_spectrum.py]  (SDOF response spectrum).

    Samples are modelled as real numbers ([R]) in exact arithmetic, as the data
    model of the specification has them ("real-valued samples"); rounding of
    binary64 arithmetic is outside the model.  A Python exception is a value
    [Raise e] of the [result] type, a normal return is [Ok v].  The numpy
    routines the scripts call are given by their documented mathematical
    meaning (module [NumPy]). *)

From Stdlib Require Import Reals List Arith ZArith Lia Lra Psatz Bool.
Import ListNotations.

Open Scope R_scope.

(* ================================================================== *)
(** ** Exceptions and the error monad *)

Inductive pyerr : Type :=
| ValueError
| ZeroDivisionError
| OverflowError.

Inductive result (A : Type) : Type :=
| Ok (a : A)
| Raise (e : pyerr).

Arguments Ok {A} a.
Arguments Raise {A} e.

Definition bind {A B : Type} (m : result A) (k : A -> result B) : result B :=
  match m with
  | Ok a => k a
  | Raise e => Raise e
  end.

Notation "x <- m ;; k" := (bind m (fun x => k))
  (at level 61, m at next level, right associativity).

Definition fails {A : Type} (m : result A) : Prop :=
  exists e, m = Raise e.

(* ================================================================== *)
(** ** Complex numbers *)

Module Cx.

Record C : Type := mk { re : R; im : R }.

Definition zero : C := mk 0 0.
Definition of_R (x : R) : C := mk x 0.
(** The imaginary unit, Python's [1j]. *)
Definition j : C := mk 0 1.

Definition add (a b : C) : C := mk (re a + re b) (im a + im b).
Definition opp (a : C) : C := mk (- re a) (- im a).
Definition sub (a b : C) : C := add a (opp b).
Definition mul (a b : C) : C :=
  mk (re a * re b - im a * im b) (re a * im b + im a * re b).
Definition scale (x : R) (a : C) : C := mk (x * re a) (x * im a).
Definition norm2 (a : C) : R := re a * re a + im a * im a.
Definition div (a b : C) : C :=
  mk ((re a * re b + im a * im b) / norm2 b)
     ((im a * re b - re a * im b) / norm2 b).
(** [np.abs] on a complex number. *)
Definition abs (a : C) : R := sqrt (norm2 a).

End Cx.

(* ================================================================== *)
(** ** The numpy routines used by the scripts *)

Module NumPy.

(** [np.max] of a one-dimensional array; an empty array raises
    [ValueError] (a reduction with no identity). *)
Definition np_max (l : list R) : result R :=
  match l with
  | [] => Raise ValueError
  | x :: t => Ok (fold_left Rmax t x)
  end.

(** [np.argmax]: the scan keeps the first index whose value is strictly
    larger than everything before it.  [argmax_from bi b i l] scans [l],
    whose head has index [i], with current best index [bi] of value [b]. *)
Fixpoint argmax_from (bi : nat) (b : R) (i : nat) (l : list R) : nat :=
  match l with
  | [] => bi
  | x :: t =>
      if Rlt_dec b x then argmax_from i x (S i) t
      else argmax_from bi b (S i) t
  end.

Definition np_argmax (l : list R) : result nat :=
  match l with
  | [] => Raise ValueError
  | x :: t => Ok (argmax_from 0%nat x 1%nat t)
  end.

(** [np.abs], [np.sqrt] and [**2] on arrays act element by element. *)
Definition np_abs (l : list R) : list R := map Rabs l.
Definition np_sqrt (l : list R) : list R := map sqrt l.
Definition np_square (l : list R) : list R := map (fun x => x * x) l.

(** Element-wise pairing of two lists of the same length. *)
Fixpoint zip_with {A B D : Type} (f : A -> B -> D)
    (a : list A) (b : list B) : list D :=
  match a, b with
  | x :: a', y :: b' => f x y :: zip_with f a' b'
  | _, _ => []
  end.

(** A binary operator on two one-dimensional arrays, under numpy's
    broadcasting rule: equal lengths pair up; an array of length one is
    stretched to the other's length; any other pair of lengths raises
    [ValueError] ("operands could not be broadcast together"). *)
Definition broadcast (f : R -> R -> R) (a b : list R) : result (list R) :=
  if Nat.eqb (length a) (length b) then Ok (zip_with f a b)
  else match a, b with
       | [x], _ => Ok (map (f x) b)
       | _, [y] => Ok (map (fun x => f x y) a)
       | _, _ => Raise ValueError
       end.

Definition np_add : list R -> list R -> result (list R) := broadcast Rplus.

(** Sum and mean of an array ([np.mean] of a non-empty array). *)
Definition np_sum (l : list R) : R := fold_right Rplus 0 l.
Definition np_mean (l : list R) : R := np_sum l / INR (length l).

End NumPy.

Import NumPy.

(* ================================================================== *)
(** ** Peak values  ([001_01_convert_seismic.py], lines 41-62, and
       [003_01_calculate_velocity_and_displacement.py], lines 160-175) *)

(** [calc_signed_peak]: the sample at the index of maximum absolute value.
    Index [abs_max_idx] is within the array whenever [np_argmax] returns. *)
Definition calc_signed_peak (data : list R) : result R :=
  abs_max_idx <- np_argmax (np_abs data) ;;
  Ok (nth abs_max_idx data 0).

(** [calc_peak_horizontal]: [np.max(np.sqrt(ns**2 + ew**2))]. *)
Definition calc_peak_horizontal (ns ew : list R) : result R :=
  s <- np_add (np_square ns) (np_square ew) ;;
  let combined := np_sqrt s in
  np_max combined.

(** [calc_peak_total]: [np.max(np.sqrt(ns**2 + ew**2 + ud**2))]; the sum
    associates to the left, as Python evaluates it. *)
Definition calc_peak_total (ns ew ud : list R) : result R :=
  s1 <- np_add (np_square ns) (np_square ew) ;;
  s2 <- np_add s1 (np_square ud) ;;
  let combined := np_sqrt s2 in
  np_max combined.

(* ================================================================== *)
(** ** Discrete Fourier transforms of real input ([np.fft]) *)

Module FFT.

Import Cx.

Definition Csum (l : list C) : C := fold_right add zero l.

(** [exp(-2 pi i j k / n)]. *)
Definition twiddle (n j k : nat) : C :=
  let theta := 2 * PI * INR j * INR k / INR n in
  mk (cos theta) (- sin theta).

(** Bin [k] of the length-[n] transform of [a]; [a] is cropped to [n]
    samples or padded with zeros up to [n], as [rfft(a, n)] does. *)
Definition dft_bin (a : list R) (n k : nat) : C :=
  Csum (map (fun j => scale (nth j a 0) (twiddle n j k)) (seq 0 n)).

(** [np.fft.rfft(a, n)]: bins [0 .. n//2]; zero points raise [ValueError]. *)
Definition np_rfft (a : list R) (n : nat) : result (list C) :=
  if Nat.eqb n 0 then Raise ValueError
  else Ok (map (dft_bin a n) (seq 0 (n / 2 + 1))).

(** [np.fft.rfftfreq(n, d)]: [val = 1.0/(n*d)] and then [arange(n//2+1)*val];
    the division is Python's and raises on a zero divisor. *)
Definition np_rfftfreq (n : nat) (d : R) : result (list R) :=
  if Req_EM_T (INR n * d) 0 then Raise ZeroDivisionError
  else
    let val := 1 / (INR n * d) in
    Ok (map (fun k => INR k * val) (seq 0 (n / 2 + 1))).

(** Sample [t] of [np.fft.irfft(X, n)]: the Hermitian-symmetric inverse.
    The imaginary parts of the DC bin and (for even [n]) of the Nyquist bin
    are ignored; missing bins count as zero. *)
Definition irfft_sample (X : list C) (n t : nat) : R :=
  let bin k := nth k X zero in
  let nyq :=
    if Nat.eqb (n mod 2) 0 then re (bin (n / 2)%nat) * cos (PI * INR t)
    else 0 in
  let inner :=
    fold_right Rplus 0
      (map (fun k =>
              let th := 2 * PI * INR t * INR k / INR n in
              re (bin k) * cos th - im (bin k) * sin th)
           (seq 1 ((n - 1) / 2))) in
  (re (bin 0%nat) + nyq + 2 * inner) / INR n.

Definition np_irfft (X : list C) (n : nat) : result (list R) :=
  if Nat.eqb n 0 then Raise ValueError
  else Ok (map (irfft_sample X n) (seq 0 n)).

End FFT.

Import FFT.

(** Python's float division [x / y], which raises on [y == 0]. *)
Definition py_div (x y : R) : result R :=
  if Req_EM_T y 0 then Raise ZeroDivisionError else Ok (x / y).

(** In-place update of one cell, [a[i] = f(a[i])], for [i] within [a]. *)
Fixpoint update_at {A : Type} (i : nat) (f : A -> A) (l : list A) : list A :=
  match l, i with
  | [], _ => []
  | x :: t, O => f x :: t
  | x :: t, S i' => x :: update_at i' f t
  end.

Definition set_at {A : Type} (i : nat) (v : A) (l : list A) : list A :=
  update_at i (fun _ => v) l.

(* ================================================================== *)
(** ** Fourier amplitude spectrum
       ([002_01_calculate_fourier.py], lines 36-72) *)

Definition calculate_fourier_spectrum (data : list R) (sampling_rate : R)
  : result (list R * list R) :=
  let n := length data in
  dt <- py_div 1 sampling_rate ;;
  fft_result <- np_rfft data n ;;
  freq <- np_rfftfreq n dt ;;
  let amplitude := map (fun z => Cx.abs z * dt * 2) fft_result in
  (* amplitude[0] /= 2 *)
  let amplitude := update_at 0 (fun x => x / 2) amplitude in
  (* if n % 2 == 0: amplitude[-1] /= 2 *)
  let amplitude :=
    if Nat.eqb (n mod 2) 0
    then update_at (length amplitude - 1) (fun x => x / 2) amplitude
    else amplitude in
  Ok (freq, amplitude).

(** The single-sided amplitude of bin [k] in closed form: [|F_k| dt 2],
    halved at the DC bin and, for an even number of samples, at the
    Nyquist bin. *)
Definition single_sided_amplitude (data : list R) (dt : R) (k : nat) : R :=
  let n := length data in
  let a := Cx.abs (dft_bin data n k) * dt * 2 in
  if Nat.eqb k 0 then a / 2
  else if Nat.eqb (n mod 2) 0 && Nat.eqb k (n / 2) then a / 2
  else a.

(* ================================================================== *)
(** ** Frequency-domain integration
       ([003_01_calculate_velocity_and_displacement.py], lines 98-157) *)

(** The slice assignment [dst[:k] = src]: the slice has
    [min k (len dst)] cells; [src] must have that many, or exactly one
    (which is then repeated); anything else raises [ValueError]. *)
Definition assign_prefix (dst : list R) (k : nat) (src : list R)
  : result (list R) :=
  let m := Nat.min k (length dst) in
  if Nat.eqb (length src) m then Ok (src ++ skipn m dst)
  else match src with
       | [x] => Ok (repeat x m ++ skipn m dst)
       | _ => Raise ValueError
       end.

(** [np.zeros(k)] for an integer [k]; a negative size raises. *)
Definition np_zeros (k : Z) : result (list R) :=
  if (k <? 0)%Z then Raise ValueError else Ok (repeat 0 (Z.to_nat k)).

(** Everything [integrate_fft_padded] computes on its way, in the order of
    the source; the function's return value is the last two fields. *)
Record integration : Type := {
  ig_n_padded : nat;
  ig_omega : list R;          (* after [omega[0] = 1.0] *)
  ig_fft_vel : list Cx.C;     (* after [fft_vel[0] = 0] *)
  ig_fft_disp : list Cx.C;    (* after [fft_disp[0] = 0] *)
  ig_velocity : list R;
  ig_displacement : list R
}.

Definition integrate_fft_padded_steps
    (data : list R) (sampling_rate : R) (pad_factor : Z)
  : result integration :=
  let n_original := length data in
  let n_padded := (pad_factor * Z.of_nat n_original)%Z in
  dt <- py_div 1 sampling_rate ;;
  data_padded <- np_zeros n_padded ;;
  data_padded <- assign_prefix data_padded n_original data ;;
  fft_acc <- np_rfft data_padded (length data_padded) ;;
  freq <- np_rfftfreq (Z.to_nat n_padded) dt ;;
  let omega := map (fun f => 2 * PI * f) freq in
  let omega := set_at 0 1 omega in
  let i_omega := map (fun w => Cx.mul Cx.j (Cx.of_R w)) omega in
  let fft_vel := zip_with Cx.div fft_acc i_omega in
  let fft_disp := zip_with Cx.div fft_vel i_omega in
  let fft_vel := set_at 0 Cx.zero fft_vel in
  let fft_disp := set_at 0 Cx.zero fft_disp in
  velocity_padded <- np_irfft fft_vel (Z.to_nat n_padded) ;;
  displacement_padded <- np_irfft fft_disp (Z.to_nat n_padded) ;;
  let velocity := firstn n_original velocity_padded in
  let displacement := firstn n_original displacement_padded in
  let velocity := map (fun v => v - np_mean velocity) velocity in
  let displacement := map (fun d => d - np_mean displacement) displacement in
  Ok {| ig_n_padded := Z.to_nat n_padded;
        ig_omega := omega;
        ig_fft_vel := fft_vel;
        ig_fft_disp := fft_disp;
        ig_velocity := velocity;
        ig_displacement := displacement |}.

Definition integrate_fft_padded
    (data : list R) (sampling_rate : R) (pad_factor : Z)
  : result (list R * list R) :=
  s <- integrate_fft_padded_steps data sampling_rate pad_factor ;;
  Ok (ig_velocity s, ig_displacement s).


(* ================================================================== *)
(** ** SDOF response spectrum
       ([004_01_calculate_response_spectrum.py], lines 42-176) *)

(** [H = -1.0 / (omega_n**2 - omega**2 + 2j*h*omega_n*omega)].  The
    denominator vanishes only for [h = 0] at resonance or for
    [omega_n = 0]; numpy's quotient is then nan or inf, which a real number
    does not represent (the quotient of [Cx.div] is 0 there), so what is
    stated about the values of the responses takes [h <> 0]. *)
Definition sdof_transfer_function (freq : list R) (omega_n h : R)
  : list Cx.C :=
  map (fun f =>
         let omega := 2 * PI * f in
         Cx.div (Cx.of_R (-1))
                (Cx.add (Cx.of_R (omega_n * omega_n - omega * omega))
                        (Cx.scale (h * omega_n * omega) (Cx.mk 0 2))))
      freq.

(** [n_fft = 2 ** int(np.ceil(np.log2(n)) + 1)].  For [n >= 1] the ceiling
    of the binary logarithm is [Nat.log2_up n]; for [n = 0] the logarithm
    is minus infinity and [int] raises [OverflowError]. *)
Definition fft_length (n : nat) : result nat :=
  if Nat.eqb n 0 then Raise OverflowError
  else Ok (2 ^ (Nat.log2_up n + 1))%nat.

(** The part of [calculate_response_fft] after the FFT length is known and
    the transform and frequency grid are computed, up to the three
    frequency-domain responses.  The first assignment to [abs_acc_fft] is
    kept as the source has it; the second one shadows it. *)
Definition response_spectra
    (acc_fft : list Cx.C) (freq : list R) (omega_n h : R)
  : list Cx.C * list Cx.C * list Cx.C :=
  let H_disp := sdof_transfer_function freq omega_n h in
  let disp_fft := zip_with Cx.mul acc_fft H_disp in
  let omega := map (fun f => 2 * PI * f) freq in
  let vel_fft :=
    zip_with (fun w d => Cx.mul (Cx.mul Cx.j (Cx.of_R w)) d) omega disp_fft in
  let abs_acc_fft :=
    zip_with Cx.add acc_fft
      (zip_with Cx.sub
         (zip_with (fun w d => Cx.scale (- (w * w)) d) omega disp_fft)
         (map (fun v => Cx.div (Cx.scale (2 * h * omega_n) v) Cx.j) vel_fft)) in
  let rel_acc_fft :=
    zip_with (fun w d => Cx.scale (- (w * w)) d) omega disp_fft in
  let abs_acc_fft := zip_with Cx.add acc_fft rel_acc_fft in
  (disp_fft, vel_fft, abs_acc_fft).

Definition calculate_response_fft (acc : list R) (dt period h : R)
  : result (R * R * R) :=
  if Req_EM_T period 0 then
    sa <- np_max (np_abs acc) ;;
    Ok (0, 0, sa)
  else
    let n := length acc in
    let omega_n := 2 * PI / period in
    n_fft <- fft_length n ;;
    acc_fft <- np_rfft acc n_fft ;;
    freq <- np_rfftfreq n_fft dt ;;
    let '(disp_fft, vel_fft, abs_acc_fft) :=
      response_spectra acc_fft freq omega_n h in
    disp_full <- np_irfft disp_fft n_fft ;;
    vel_full <- np_irfft vel_fft n_fft ;;
    abs_acc_full <- np_irfft abs_acc_fft n_fft ;;
    let disp := firstn n disp_full in
    let vel := firstn n vel_full in
    let abs_acc_resp := firstn n abs_acc_full in
    sd <- np_max (np_abs disp) ;;
    sv <- np_max (np_abs vel) ;;
    sa <- np_max (np_abs abs_acc_resp) ;;
    Ok (sd, sv, sa).

(** The reference the dead-code claim compares with: the same computation
    written with the retained formula [AbsAcc = A - omega^2 D] only. *)
Definition response_spectra_retained
    (acc_fft : list Cx.C) (freq : list R) (omega_n h : R)
  : list Cx.C * list Cx.C * list Cx.C :=
  let H_disp := sdof_transfer_function freq omega_n h in
  let disp_fft := zip_with Cx.mul acc_fft H_disp in
  let omega := map (fun f => 2 * PI * f) freq in
  let vel_fft :=
    zip_with (fun w d => Cx.mul (Cx.mul Cx.j (Cx.of_R w)) d) omega disp_fft in
  let abs_acc_fft :=
    zip_with Cx.add acc_fft
      (zip_with (fun w d => Cx.scale (- (w * w)) d) omega disp_fft) in
  (disp_fft, vel_fft, abs_acc_fft).

Definition calculate_response_fft_retained (acc : list R) (dt period h : R)
  : result (R * R * R) :=
  if Req_EM_T period 0 then
    sa <- np_max (np_abs acc) ;;
    Ok (0, 0, sa)
  else
    let n := length acc in
    let omega_n := 2 * PI / period in
    n_fft <- fft_length n ;;
    acc_fft <- np_rfft acc n_fft ;;
    freq <- np_rfftfreq n_fft dt ;;
    let '(disp_fft, vel_fft, abs_acc_fft) :=
      response_spectra_retained acc_fft freq omega_n h in
    disp_full <- np_irfft disp_fft n_fft ;;
    vel_full <- np_irfft vel_fft n_fft ;;
    abs_acc_full <- np_irfft abs_acc_fft n_fft ;;
    sd <- np_max (np_abs (firstn n disp_full)) ;;
    sv <- np_max (np_abs (firstn n vel_full)) ;;
    sa <- np_max (np_abs (firstn n abs_acc_full)) ;;
    Ok (sd, sv, sa).

(** The dictionary [calculate_response_spectrum] returns. *)
Record spectrum : Type := {
  SD : list R;
  SV : list R;
  SA : list R;
  pSV : list R
}.

(** The loop [for i, T in enumerate(periods)]: one response per period,
    stopping at the first exception. *)
Fixpoint response_loop (acc : list R) (dt : R) (periods : list R) (h : R)
  : result (list (R * R * R)) :=
  match periods with
  | [] => Ok []
  | T :: rest =>
      r <- calculate_response_fft acc dt T h ;;
      rs <- response_loop acc dt rest h ;;
      Ok (r :: rs)
  end.

(** [psv_arr[nonzero_idx] = (2*pi / periods[nonzero_idx]) * sd_arr[nonzero_idx]]
    with [nonzero_idx = periods > 0]; the other cells keep their zero. *)
Definition pseudo_velocity (periods sd_arr : list R) : list R :=
  zip_with (fun T sd => if Rlt_dec 0 T then (2 * PI / T) * sd else 0)
           periods sd_arr.

Definition calculate_response_spectrum
    (acc : list R) (dt : R) (periods : list R) (h : R) : result spectrum :=
  rs <- response_loop acc dt periods h ;;
  let sd_arr := map (fun r => fst (fst r)) rs in
  let sv_arr := map (fun r => snd (fst r)) rs in
  let sa_arr := map (fun r => snd r) rs in
  let psv_arr := pseudo_velocity periods sd_arr in
  Ok {| SD := sd_arr; SV := sv_arr; SA := sa_arr; pSV := psv_arr |}.

(* ================================================================== *)
(** ** Ingestion of a station
       ([001_01_convert_seismic.py], lines 123-226 and 281-374) *)

(** The peak summary written to [metadata.yml]. *)
Record peaks : Type := {
  peak_ns : R;
  peak_ew : R;
  peak_ud : R;
  peak_h : R;
  peak_total : R
}.

(** What one station yields: the three columns of [waveform.csv] and the
    peak summary computed from them. *)
Record station : Type := {
  wf_ns : list R;
  wf_ew : list R;
  wf_ud : list R;
  max_acceleration : peaks
}.

Definition station_peaks (ns_data ew_data ud_data : list R) : result peaks :=
  p_ns <- calc_signed_peak ns_data ;;
  p_ew <- calc_signed_peak ew_data ;;
  p_ud <- calc_signed_peak ud_data ;;
  p_h <- calc_peak_horizontal ns_data ew_data ;;
  p_total <- calc_peak_total ns_data ew_data ud_data ;;
  Ok {| peak_ns := p_ns; peak_ew := p_ew; peak_ud := p_ud;
        peak_h := p_h; peak_total := p_total |}.

(** [process_nied_station] on the three parsed component sequences: the
    trimming to [num_samples], then the table and the peaks. *)
Definition process_nied_station (ew_data ns_data ud_data : list R)
  : result station :=
  let num_samples :=
    Nat.min (length ew_data) (Nat.min (length ns_data) (length ud_data)) in
  let ew_data := firstn num_samples ew_data in
  let ns_data := firstn num_samples ns_data in
  let ud_data := firstn num_samples ud_data in
  pk <- station_peaks ns_data ew_data ud_data ;;
  Ok {| wf_ns := ns_data; wf_ew := ew_data; wf_ud := ud_data;
        max_acceleration := pk |}.

(** [process_jma_station] on the parsed three-column table: one row per
    sample, so the columns are as long as the table. *)
Definition process_jma_station (df : list (R * R * R)) : result station :=
  let ns_data := map (fun r => fst (fst r)) df in
  let ew_data := map (fun r => snd (fst r)) df in
  let ud_data := map (fun r => snd r) df in
  pk <- station_peaks ns_data ew_data ud_data ;;
  Ok {| wf_ns := ns_data; wf_ew := ew_data; wf_ud := ud_data;
        max_acceleration := pk |}.

(* ================================================================== *)
(** ** Baseline correction
       ([003_01_calculate_velocity_and_displacement.py], lines 45-68) *)

(** Python's [int(x)] on a float: truncation towards zero. *)
Definition py_int (x : R) : Z :=
  if Rle_dec 0 x then Zfloor x else Zceil x.

(** The slice [l[:k]]; a negative [k] counts from the end of [l]. *)
Definition py_slice_to (k : Z) (l : list R) : list R :=
  if (k <? 0)%Z then firstn (length l - Z.to_nat (- k)) l
  else firstn (Z.to_nat k) l.

Definition BASELINE_WINDOW_SEC : R := 1.

(** [apply_baseline_correction].  [np.mean] of an empty window is NaN (numpy
    warns and goes on), and so is then every sample of [data - baseline];
    NaN is not a real number, so the model has [None] for that array.  An
    empty [data] stays the empty array. *)
Definition apply_baseline_correction
    (data : list R) (sampling_rate window_sec : R) : option (list R) :=
  let n_samples := py_int (window_sec * sampling_rate) in
  let n_samples := Z.min n_samples (Z.of_nat (length data)) in
  let window := py_slice_to n_samples data in
  match window, data with
  | [], [] => Some []
  | [], _ :: _ => None
  | _ :: _, _ =>
      let baseline := np_mean window in
      Some (map (fun x => x - baseline) data)
  end.

(* ================================================================== *)
(** ** The period grid and the station table of the response spectrum
       ([004_01_calculate_response_spectrum.py], lines 26-29 and 183-246) *)

Definition DAMPING_RATIO : R := 5 / 100.
Definition PERIOD_MIN : R := 2 / 100.
Definition PERIOD_MAX : R := 10.
Definition PERIOD_NUM : nat := 100.

(** [np.log10] of a positive number. *)
Definition np_log10 (x : R) : R := Rlog 10 x.

(** [np.linspace(start, stop, num)] with the end point included: [num]
    samples [start + i * step], [step = (stop - start) / (num - 1)], the
    last one then set to [stop]; a single sample is [start]. *)
Definition np_linspace (start stop : R) (num : nat) : list R :=
  match num with
  | O => []
  | S O => [start]
  | S div =>
      let step := (stop - start) / INR div in
      let y := map (fun i => INR i * step + start) (seq 0 num) in
      set_at (num - 1) stop y
  end.

(** [np.logspace(start, stop, num)]: ten to the power of the linear grid. *)
Definition np_logspace (start stop : R) (num : nat) : list R :=
  map (fun y => Rpower 10 y) (np_linspace start stop num).

(** [np.sqrt(a**2 + b**2)] on two arrays: the SRSS combination. *)
Definition srss (a b : list R) : result (list R) :=
  s <- np_add (np_square a) (np_square b) ;;
  Ok (np_sqrt s).

(** The table written to [response_spectrum.csv]. *)
Record response_table : Type := {
  rt_period : list R;
  rt_NS : list R;
  rt_EW : list R;
  rt_UD : list R;
  rt_H : list R
}.

(** [pd.DataFrame] of named columns: the columns must have one length. *)
Definition data_frame (cols : list (list R)) : result (list (list R)) :=
  match cols with
  | [] => Ok []
  | c :: rest =>
      if forallb (fun c' => Nat.eqb (length c') (length c)) rest
      then Ok cols else Raise ValueError
  end.

(** [process_station] of the response-spectrum script on the three columns
    of [waveform.csv] and the sampling rate of the metadata: the spectra of
    the three components on the period grid, the horizontal combination of
    each of the four quantities, and the table of the velocity spectra. *)
Definition response_station_on
    (periods : list R) (ns ew ud : list R) (sampling_rate : R)
  : result response_table :=
  dt <- py_div 1 sampling_rate ;;
  r_ns <- calculate_response_spectrum ns dt periods DAMPING_RATIO ;;
  r_ew <- calculate_response_spectrum ew dt periods DAMPING_RATIO ;;
  r_ud <- calculate_response_spectrum ud dt periods DAMPING_RATIO ;;
  h_sd <- srss (SD r_ns) (SD r_ew) ;;
  h_sv <- srss (SV r_ns) (SV r_ew) ;;
  h_sa <- srss (SA r_ns) (SA r_ew) ;;
  h_psv <- srss (pSV r_ns) (pSV r_ew) ;;
  _ <- data_frame [periods; SV r_ns; SV r_ew; SV r_ud; h_sv] ;;
  Ok {| rt_period := periods; rt_NS := SV r_ns; rt_EW := SV r_ew;
        rt_UD := SV r_ud; rt_H := h_sv |}.

Definition period_grid : list R :=
  np_logspace (np_log10 PERIOD_MIN) (np_log10 PERIOD_MAX) PERIOD_NUM.

Definition response_station (ns ew ud : list R) (sampling_rate : R)
  : result response_table :=
  response_station_on period_grid ns ew ud sampling_rate.

(* ================================================================== *)
(** ** The station table of the Fourier spectrum
       ([002_01_calculate_fourier.py], lines 75-127) *)

(** [process_station] of the Fourier script on the three columns of
    [waveform.csv]: the frequency grid of the NS component and the three
    amplitude arrays, as the columns of one table. *)
Definition fourier_station (ns ew ud : list R) (sampling_rate : R)
  : result (list (list R)) :=
  r_ns <- calculate_fourier_spectrum ns sampling_rate ;;
  r_ew <- calculate_fourier_spectrum ew sampling_rate ;;
  r_ud <- calculate_fourier_spectrum ud sampling_rate ;;
  let freq := fst r_ns in
  data_frame [freq; snd r_ns; snd r_ew; snd r_ud].

(* ================================================================== *)
(** ** Sample inputs used by the examples below *)

(** A series whose largest absolute value occurs twice, first with a
    negative sign. *)
Definition series_tie : list R := [1; -3; 3; 2].

(** Two series of different lengths, the first of length one. *)
Definition series_single : list R := [3].
Definition series_pair : list R := [4; 0].

(** Three series of pairwise different lengths, none of length one. *)
Definition series_none : list R := [].
Definition series_two : list R := [1; 2].
Definition series_three : list R := [1; 2; 3].

(** A parsed JMA table of two rows. *)
Definition table_two : list (R * R * R) := [(1, 2, 3); (4, 5, 6)].

(** A constant series of three samples. *)
Definition series_constant : list R := [2; 2; 2].

(** The impulse of the end-to-end scenario: twenty samples at 10 Hz, the
    tenth of value 10. *)
Definition series_impulse : list R :=
  [0; 0; 0; 0; 0; 0; 0; 0; 0; 10; 0; 0; 0; 0; 0; 0; 0; 0; 0; 0].

(* ================================================================== *)
(** * Properties *)

(** ** The error monad *)

Lemma bind_ok {A B : Type} (m : result A) (k : A -> result B) (b : B) :
  bind m k = Ok b -> exists a, m = Ok a /\ k a = Ok b.
Proof.
  destruct m as [a|e]; simpl; intros H.
  - exists a; split; [reflexivity | exact H].
  - discriminate H.
Qed.

Lemma ok_not_fails {A : Type} (m : result A) (a : A) : m = Ok a -> ~ fails m.
Proof. intros -> [e He]. discriminate He. Qed.

(** ** Complex modulus *)

Lemma Cx_abs_nonneg (a : Cx.C) : 0 <= Cx.abs a.
Proof. unfold Cx.abs. apply sqrt_pos. Qed.

Lemma Cx_abs_real (x : R) : Cx.abs (Cx.mk x 0) = Rabs x.
Proof.
  unfold Cx.abs, Cx.norm2; simpl.
  replace (x * x + 0 * 0) with (Rsqr x) by (unfold Rsqr; ring).
  apply sqrt_Rsqr_abs.
Qed.

(** ** Lists: [zip_with], [update_at] *)

Lemma zip_with_length {A B D : Type} (f : A -> B -> D) (a : list A) :
  forall b, length (zip_with f a b) = Nat.min (length a) (length b).
Proof.
  induction a as [|x a IH]; intros [|y b]; simpl; auto.
Qed.

Lemma update_at_length {A : Type} (f : A -> A) (l : list A) :
  forall i, length (update_at i f l) = length l.
Proof.
  induction l as [|x l IH]; intros [|i]; simpl; auto.
Qed.

Lemma update_at_nth_same {A : Type} (f : A -> A) (d : A) (l : list A) :
  forall i, (i < length l)%nat -> nth i (update_at i f l) d = f (nth i l d).
Proof.
  induction l as [|x l IH]; intros [|i] Hi; simpl in *; try lia; auto.
  apply IH; lia.
Qed.

Lemma update_at_nth_other {A : Type} (f : A -> A) (d : A) (l : list A) :
  forall i k, i <> k -> nth k (update_at i f l) d = nth k l d.
Proof.
  induction l as [|x l IH]; intros [|i] [|k] Hik; simpl; auto; try lia.
Qed.

(** ** [np_max] *)

Lemma fold_Rmax_ge_init (t : list R) : forall x, x <= fold_left Rmax t x.
Proof.
  induction t as [|y t IH]; intros x; simpl.
  - lra.
  - eapply Rle_trans; [apply (Rmax_l x y) | apply IH].
Qed.

Lemma fold_Rmax_ge (t : list R) :
  forall x y, In y t -> y <= fold_left Rmax t x.
Proof.
  induction t as [|z t IH]; intros x y Hin; simpl in *.
  - contradiction.
  - destruct Hin as [-> | Hin].
    + eapply Rle_trans; [apply (Rmax_r x y) | apply fold_Rmax_ge_init].
    + apply IH; assumption.
Qed.

Lemma fold_Rmax_in (t : list R) :
  forall x, fold_left Rmax t x = x \/ In (fold_left Rmax t x) t.
Proof.
  induction t as [|z t IH]; intros x; simpl.
  - left; reflexivity.
  - destruct (IH (Rmax x z)) as [H | H].
    + rewrite H. unfold Rmax. destruct (Rle_dec x z); auto.
    + right; right; exact H.
Qed.

Lemma np_max_ge (l : list R) (m : R) :
  np_max l = Ok m -> forall y, In y l -> y <= m.
Proof.
  destruct l as [|x t]; simpl; intros H y Hin; [discriminate|].
  injection H as <-.
  destruct Hin as [<- | Hin].
  - apply fold_Rmax_ge_init.
  - apply fold_Rmax_ge; assumption.
Qed.

Lemma np_max_in (l : list R) (m : R) : np_max l = Ok m -> In m l.
Proof.
  destruct l as [|x t]; simpl; intros H; [discriminate|].
  injection H as <-.
  destruct (fold_Rmax_in t x) as [-> | Hin]; auto.
Qed.

Lemma np_max_nonempty (l : list R) : l <> [] -> exists m, np_max l = Ok m.
Proof.
  destruct l as [|x t]; intros H; [congruence|].
  simpl; eauto.
Qed.

(** The maximum of a list that is pointwise below another one is below the
    other's maximum. *)
Lemma np_max_mono (l1 l2 : list R) (m1 m2 : R) :
  Forall2 Rle l1 l2 -> np_max l1 = Ok m1 -> np_max l2 = Ok m2 -> m1 <= m2.
Proof.
  intros HF H1 H2.
  pose proof (np_max_in _ _ H1) as Hin.
  assert (Hex : exists y, In y l2 /\ m1 <= y).
  { clear H1 H2. induction HF as [|a b l1 l2 Hab HF IH]; simpl in *.
    - contradiction.
    - destruct Hin as [<- | Hin].
      + exists b; auto.
      + destruct (IH Hin) as [y [Hy Hle]]. exists y; auto. }
  destruct Hex as [y [Hy Hle]].
  eapply Rle_trans; [exact Hle | eapply np_max_ge; eauto].
Qed.

(** ** [np_argmax]: the first index of the maximum *)

Lemma argmax_from_spec (l : list R) :
  forall (pre : list R) (bi : nat) (b : R),
    (bi < length pre)%nat ->
    nth bi pre 0 = b ->
    (forall k, (k < length pre)%nat -> nth k pre 0 <= b) ->
    (forall k, (k < bi)%nat -> nth k pre 0 < b) ->
    let r := argmax_from bi b (length pre) l in
    (r < length (pre ++ l))%nat /\
    (forall k, (k < length (pre ++ l))%nat ->
               nth k (pre ++ l) 0 <= nth r (pre ++ l) 0) /\
    (forall k, (k < r)%nat -> nth k (pre ++ l) 0 < nth r (pre ++ l) 0).
Proof.
  induction l as [|x t IH]; intros pre bi b Hbi Hb Hle Hlt; simpl.
  - rewrite app_nil_r. rewrite Hb. repeat split; auto.
  - assert (Hlen : length (pre ++ [x]) = S (length pre))
      by (rewrite length_app; simpl; lia).
    assert (Hcat : pre ++ x :: t = (pre ++ [x]) ++ t)
      by (rewrite <- app_assoc; reflexivity).
    destruct (Rlt_dec b x) as [Hbx | Hbx].
    + rewrite Hcat, <- Hlen.
      apply IH.
      * lia.
      * rewrite app_nth2 by lia. rewrite Nat.sub_diag. reflexivity.
      * intros k Hk. rewrite Hlen in Hk.
        destruct (Nat.eq_dec k (length pre)) as [-> | Hne].
        -- rewrite app_nth2 by lia. rewrite Nat.sub_diag. simpl. lra.
        -- rewrite app_nth1 by lia.
           specialize (Hle k ltac:(lia)). lra.
      * intros k Hk. rewrite app_nth1 by lia.
        specialize (Hle k Hk). lra.
    + rewrite Hcat, <- Hlen.
      apply IH.
      * lia.
      * rewrite app_nth1 by lia. exact Hb.
      * intros k Hk. rewrite Hlen in Hk.
        destruct (Nat.eq_dec k (length pre)) as [-> | Hne].
        -- rewrite app_nth2 by lia. rewrite Nat.sub_diag. simpl. lra.
        -- rewrite app_nth1 by lia. apply Hle. lia.
      * intros k Hk. rewrite app_nth1 by lia. apply Hlt. exact Hk.
Qed.

Lemma np_argmax_spec (l : list R) :
  l <> [] ->
  exists r,
    np_argmax l = Ok r /\
    (r < length l)%nat /\
    (forall k, (k < length l)%nat -> nth k l 0 <= nth r l 0) /\
    (forall k, (k < r)%nat -> nth k l 0 < nth r l 0).
Proof.
  destruct l as [|x t]; intros Hne; [congruence|].
  exists (argmax_from 0 x 1 t). split; [reflexivity|].
  apply (argmax_from_spec t [x] 0%nat x); simpl.
  - lia.
  - reflexivity.
  - intros k Hk. assert (k = 0%nat) as -> by lia. lra.
  - intros k Hk. lia.
Qed.

Lemma nth_np_abs (l : list R) (k : nat) :
  nth k (np_abs l) 0 = Rabs (nth k l 0).
Proof.
  unfold np_abs. rewrite <- Rabs_R0 at 1. apply map_nth.
Qed.

(** ** Signed peak *)

(** C5.  For a non-empty series [S], [calc_signed_peak] returns the sample
    [S[i]] (with its sign) at the lowest index [i] whose absolute value is
    the maximum of the absolute values: no sample exceeds it in absolute
    value, and every sample before index [i] is strictly smaller in
    absolute value. *)
Theorem calc_signed_peak_first_max (S : list R) :
  S <> [] ->
  exists i,
    (i < length S)%nat /\
    calc_signed_peak S = Ok (nth i S 0) /\
    np_max (np_abs S) = Ok (Rabs (nth i S 0)) /\
    (forall k, (k < length S)%nat -> Rabs (nth k S 0) <= Rabs (nth i S 0)) /\
    (forall k, (k < i)%nat -> Rabs (nth k S 0) < Rabs (nth i S 0)).
Proof.
  intros Hne.
  assert (Hne' : np_abs S <> []).
  { destruct S; [congruence | discriminate]. }
  destruct (np_argmax_spec (np_abs S) Hne') as (r & Hr & Hlt & Hmax & Hfirst).
  assert (Hlen : length (np_abs S) = length S) by apply length_map.
  rewrite Hlen in *.
  exists r. split; [exact Hlt|]. split.
  - unfold calc_signed_peak. rewrite Hr. reflexivity.
  - assert (Hall : forall k, (k < length S)%nat ->
                             Rabs (nth k S 0) <= Rabs (nth r S 0)).
    { intros k Hk. rewrite <- !nth_np_abs. apply Hmax, Hk. }
    split; [|split; [exact Hall|]].
    + destruct (np_max_nonempty (np_abs S) Hne') as [m Hm].
      rewrite Hm. f_equal. apply Rle_antisym.
      * pose proof (np_max_in _ _ Hm) as Hin.
        destruct (In_nth _ _ 0 Hin) as (k & Hk & Hnth).
        rewrite Hlen in Hk. rewrite <- Hnth, nth_np_abs. apply Hall, Hk.
      * apply (np_max_ge _ _ Hm). rewrite <- nth_np_abs.
        apply nth_In. rewrite Hlen. exact Hlt.
    + intros k Hk. rewrite <- !nth_np_abs. apply Hfirst, Hk.
Qed.

Lemma calc_signed_peak_first_max_witness :
  exists i,
    (i < length series_tie)%nat /\
    calc_signed_peak series_tie = Ok (nth i series_tie 0) /\
    np_max (np_abs series_tie) = Ok (Rabs (nth i series_tie 0)) /\
    (forall k, (k < length series_tie)%nat ->
               Rabs (nth k series_tie 0) <= Rabs (nth i series_tie 0)) /\
    (forall k, (k < i)%nat ->
               Rabs (nth k series_tie 0) < Rabs (nth i series_tie 0)).
Proof.
  apply (calc_signed_peak_first_max series_tie). discriminate.
Defined.

(** ** Broadcasting *)

Lemma broadcast_same_length (f : R -> R -> R) (a b : list R) :
  length a = length b -> broadcast f a b = Ok (zip_with f a b).
Proof.
  intros H. unfold broadcast. rewrite H, Nat.eqb_refl. reflexivity.
Qed.

Lemma broadcast_mismatch (f : R -> R -> R) (a b : list R) :
  length a <> length b -> length a <> 1%nat -> length b <> 1%nat ->
  broadcast f a b = Raise ValueError.
Proof.
  intros Hab Ha Hb. unfold broadcast.
  apply Nat.eqb_neq in Hab. rewrite Hab.
  destruct a as [|x [|x' a]]; simpl in *; try congruence;
    destruct b as [|y [|y' b]]; simpl in *; congruence.
Qed.

(** Whatever a broadcast returns when one operand is empty is empty. *)
Lemma broadcast_empty (f : R -> R -> R) (a b s : list R) :
  a = [] \/ b = [] -> broadcast f a b = Ok s -> s = [].
Proof.
  unfold broadcast.
  intros [-> | ->].
  - destruct b as [|y [|y' b]]; simpl; intros H; try congruence.
  - destruct a as [|x [|x' a]]; simpl; intros H; try congruence.
Qed.

Lemma np_square_length (l : list R) : length (np_square l) = length l.
Proof. apply length_map. Qed.

(** ** Combined peaks *)

Lemma np_sqrt_nonneg (s : list R) (m : R) : In m (np_sqrt s) -> 0 <= m.
Proof.
  unfold np_sqrt. intros Hin. apply in_map_iff in Hin.
  destruct Hin as (x & <- & _). apply sqrt_pos.
Qed.

Lemma combined_pointwise (ns : list R) :
  forall ew ud,
    length ns = length ew -> length ew = length ud ->
    Forall2 Rle
      (np_sqrt (zip_with Rplus (np_square ns) (np_square ew)))
      (np_sqrt (zip_with Rplus
                  (zip_with Rplus (np_square ns) (np_square ew))
                  (np_square ud))).
Proof.
  induction ns as [|a ns IH]; intros [|b ew] [|c ud] H1 H2;
    simpl in *; try discriminate; constructor.
  - apply sqrt_le_1_alt. nra.
  - apply IH; congruence.
Qed.

Lemma combined_peaks_spec (ns ew ud : list R) :
  ns <> [] -> length ns = length ew -> length ew = length ud ->
  exists h t,
    calc_peak_horizontal ns ew = Ok h /\
    calc_peak_total ns ew ud = Ok t /\
    0 <= h /\ 0 <= t /\ h <= t.
Proof.
  intros Hne H1 H2.
  set (s1 := zip_with Rplus (np_square ns) (np_square ew)).
  set (s2 := zip_with Rplus s1 (np_square ud)).
  assert (Hs1 : np_add (np_square ns) (np_square ew) = Ok s1).
  { apply broadcast_same_length. rewrite !np_square_length. exact H1. }
  assert (Hl1 : length s1 = length ns).
  { unfold s1. rewrite zip_with_length, !np_square_length. lia. }
  assert (Hs2 : np_add s1 (np_square ud) = Ok s2).
  { apply broadcast_same_length. rewrite np_square_length. lia. }
  assert (Hl2 : length s2 = length ns).
  { unfold s2. rewrite zip_with_length, np_square_length. lia. }
  assert (Hpos : (0 < length ns)%nat).
  { destruct ns; [congruence | simpl; lia]. }
  assert (Hn1 : np_sqrt s1 <> []).
  { intros E. apply (f_equal (@length R)) in E.
    unfold np_sqrt in E. rewrite length_map in E. simpl in E. lia. }
  assert (Hn2 : np_sqrt s2 <> []).
  { intros E. apply (f_equal (@length R)) in E.
    unfold np_sqrt in E. rewrite length_map in E. simpl in E. lia. }
  destruct (np_max_nonempty _ Hn1) as [h Hh].
  destruct (np_max_nonempty _ Hn2) as [t Ht].
  exists h, t.
  split; [unfold calc_peak_horizontal; rewrite Hs1; exact Hh|].
  split; [unfold calc_peak_total; rewrite Hs1; simpl; rewrite Hs2; exact Ht|].
  split; [eapply np_sqrt_nonneg, np_max_in; exact Hh|].
  split; [eapply np_sqrt_nonneg, np_max_in; exact Ht|].
  eapply np_max_mono; [|exact Hh|exact Ht].
  apply combined_pointwise; assumption.
Qed.

(** C6.  On three non-empty series of one common length both combined
    peaks are returned, both are non-negative, and the three-component
    peak is at least the horizontal one. *)
Theorem peak_total_ge_peak_horizontal (ns ew ud : list R) :
  ns <> [] -> length ns = length ew -> length ew = length ud ->
  exists h t,
    calc_peak_horizontal ns ew = Ok h /\
    calc_peak_total ns ew ud = Ok t /\
    0 <= h /\ 0 <= t /\ h <= t.
Proof. exact (combined_peaks_spec ns ew ud). Qed.

Lemma peak_total_ge_peak_horizontal_witness :
  exists h t,
    calc_peak_horizontal series_tie series_tie = Ok h /\
    calc_peak_total series_tie series_tie series_tie = Ok t /\
    0 <= h /\ 0 <= t /\ h <= t.
Proof.
  apply (peak_total_ge_peak_horizontal series_tie series_tie series_tie).
  - discriminate.
  - reflexivity.
  - reflexivity.
Defined.

(** ** Invalid input to the peak functions *)

Lemma calc_peak_horizontal_empty (ns ew : list R) :
  ns = [] \/ ew = [] -> calc_peak_horizontal ns ew = Raise ValueError.
Proof.
  intros H. unfold calc_peak_horizontal.
  destruct (np_add (np_square ns) (np_square ew)) as [s|e] eqn:E; simpl.
  - apply broadcast_empty in E.
    + rewrite E. reflexivity.
    + destruct H as [-> | ->]; auto.
  - unfold np_add, broadcast in E.
    destruct (Nat.eqb _ _); [discriminate|].
    destruct (np_square ns) as [|x [|x' a]]; destruct (np_square ew) as [|y [|y' b]];
      congruence.
Qed.

Lemma broadcast_error_kind (f : R -> R -> R) (a b : list R) (e : pyerr) :
  broadcast f a b = Raise e -> e = ValueError.
Proof.
  unfold broadcast. destruct (Nat.eqb _ _); [discriminate|].
  destruct a as [|x [|x' a]]; destruct b as [|y [|y' b]]; congruence.
Qed.

Lemma calc_peak_total_empty (ns ew ud : list R) :
  ns = [] \/ ew = [] \/ ud = [] -> calc_peak_total ns ew ud = Raise ValueError.
Proof.
  intros H. unfold calc_peak_total.
  destruct (np_add (np_square ns) (np_square ew)) as [s1|e] eqn:E1; simpl.
  - destruct (np_add s1 (np_square ud)) as [s2|e] eqn:E2; simpl.
    + assert (Hs2 : s2 = []).
      { destruct H as [Hns | [Hew | Hud]].
        - apply (broadcast_empty Rplus s1 (np_square ud)); [left | exact E2].
          apply (broadcast_empty Rplus (np_square ns) (np_square ew));
            [left; subst; reflexivity | exact E1].
        - apply (broadcast_empty Rplus s1 (np_square ud)); [left | exact E2].
          apply (broadcast_empty Rplus (np_square ns) (np_square ew));
            [right; subst; reflexivity | exact E1].
        - apply (broadcast_empty Rplus s1 (np_square ud));
            [right; subst; reflexivity | exact E2]. }
      rewrite Hs2. reflexivity.
    + apply broadcast_error_kind in E2. congruence.
  - apply broadcast_error_kind in E1. congruence.
Qed.

Lemma calc_peak_horizontal_mismatch (ns ew : list R) :
  length ns <> length ew -> length ns <> 1%nat -> length ew <> 1%nat ->
  calc_peak_horizontal ns ew = Raise ValueError.
Proof.
  intros Hne Hn He. unfold calc_peak_horizontal, np_add.
  rewrite broadcast_mismatch; rewrite ?np_square_length; auto.
Qed.

Lemma calc_peak_total_mismatch (ns ew ud : list R) :
  ~ (length ns = length ew /\ length ew = length ud) ->
  length ns <> 1%nat -> length ew <> 1%nat -> length ud <> 1%nat ->
  calc_peak_total ns ew ud = Raise ValueError.
Proof.
  intros Hne Hn He Hu. unfold calc_peak_total, np_add.
  destruct (Nat.eq_dec (length ns) (length ew)) as [Heq | Hneq].
  - rewrite (broadcast_same_length Rplus (np_square ns) (np_square ew))
      by (rewrite !np_square_length; exact Heq).
    simpl.
    rewrite broadcast_mismatch; auto;
      rewrite ?zip_with_length, ?np_square_length; lia.
  - rewrite broadcast_mismatch; rewrite ?np_square_length; auto.
Qed.

Lemma broadcast_ok_length (f : R -> R -> R) (a b s : list R) :
  broadcast f a b = Ok s ->
  (length a = length b /\ length s = length a) \/
  (length a = 1%nat /\ length s = length b) \/
  (length b = 1%nat /\ length s = length a).
Proof.
  unfold broadcast.
  destruct (Nat.eqb_spec (length a) (length b)) as [E | NE].
  - intros H. injection H as <-. left. split; [exact E|].
    rewrite zip_with_length. lia.
  - destruct a as [|x [|x' a]]; destruct b as [|y [|y' b]];
      intros H; try discriminate H; injection H as <-;
      simpl in *; rewrite ?length_map; lia.
Qed.

Lemma broadcast_ok (f : R -> R -> R) (a b : list R) :
  length a = length b \/ length a = 1%nat \/ length b = 1%nat ->
  exists s, broadcast f a b = Ok s.
Proof.
  intros H. unfold broadcast.
  destruct (Nat.eqb_spec (length a) (length b)) as [E | NE]; [eauto|].
  destruct a as [|x [|x' a]]; destruct b as [|y [|y' b]];
    simpl in H, NE; eauto; exfalso; lia.
Qed.

Lemma np_max_sqrt_ok (s : list R) :
  (1 <= length s)%nat -> exists m, np_max (np_sqrt s) = Ok m.
Proof.
  intros H. apply np_max_nonempty.
  destruct s; simpl in *; [lia | discriminate].
Qed.

Lemma length_zero_nil {A : Type} (l : list A) : l = [] <-> length l = 0%nat.
Proof. destruct l; simpl; split; congruence. Qed.

(** The outcome of the horizontal peak, by the lengths of its inputs. *)
Lemma calc_peak_horizontal_outcome (ns ew : list R) :
  match calc_peak_horizontal ns ew with
  | Ok _ =>
      ns <> [] /\ ew <> [] /\
      (length ns = length ew \/ length ns = 1%nat \/ length ew = 1%nat)
  | Raise e =>
      e = ValueError /\
      (ns = [] \/ ew = [] \/
       (length ns <> length ew /\ length ns <> 1%nat /\ length ew <> 1%nat))
  end.
Proof.
  destruct (Nat.eq_dec (length ns) 0) as [Zn | Pn].
  { rewrite calc_peak_horizontal_empty by (left; apply length_zero_nil, Zn).
    split; [reflexivity|]. left. apply length_zero_nil, Zn. }
  destruct (Nat.eq_dec (length ew) 0) as [Ze | Pe].
  { rewrite calc_peak_horizontal_empty by (right; apply length_zero_nil, Ze).
    split; [reflexivity|]. right; left. apply length_zero_nil, Ze. }
  assert (Hns : ns <> []) by (rewrite length_zero_nil; exact Pn).
  assert (Hew : ew <> []) by (rewrite length_zero_nil; exact Pe).
  destruct (Nat.eq_dec (length ns) (length ew)) as [E | NE];
    [|destruct (Nat.eq_dec (length ns) 1) as [E1 | N1];
      [|destruct (Nat.eq_dec (length ew) 1) as [E2 | N2]]].
  4:{ rewrite calc_peak_horizontal_mismatch by assumption. auto 6. }
  all: destruct (broadcast_ok Rplus (np_square ns) (np_square ew))
         as [s Hs]; [rewrite !np_square_length; auto|];
       pose proof (broadcast_ok_length _ _ _ _ Hs) as HL;
       rewrite !np_square_length in HL;
       destruct (np_max_sqrt_ok s) as [m Hm]; [lia|];
       unfold calc_peak_horizontal, np_add; rewrite Hs; cbn [bind];
       rewrite Hm; auto.
Qed.

(** The outcome of the three-component peak, by the lengths of its inputs:
    it is returned when no series is empty and all lengths other than one
    agree. *)
Lemma calc_peak_total_outcome (ns ew ud : list R) :
  match calc_peak_total ns ew ud with
  | Ok _ =>
      ns <> [] /\ ew <> [] /\ ud <> [] /\
      exists n,
        (length ns = n \/ length ns = 1%nat) /\
        (length ew = n \/ length ew = 1%nat) /\
        (length ud = n \/ length ud = 1%nat)
  | Raise e =>
      e = ValueError /\
      (ns = [] \/ ew = [] \/ ud = [] \/
       ~ exists n,
           (length ns = n \/ length ns = 1%nat) /\
           (length ew = n \/ length ew = 1%nat) /\
           (length ud = n \/ length ud = 1%nat))
  end.
Proof.
  destruct (Nat.eq_dec (length ns) 0) as [Zn | Pn].
  { rewrite calc_peak_total_empty by (left; apply length_zero_nil, Zn).
    split; [reflexivity|]. left. apply length_zero_nil, Zn. }
  destruct (Nat.eq_dec (length ew) 0) as [Ze | Pe].
  { rewrite calc_peak_total_empty
      by (right; left; apply length_zero_nil, Ze).
    split; [reflexivity|]. right; left. apply length_zero_nil, Ze. }
  destruct (Nat.eq_dec (length ud) 0) as [Zu | Pu].
  { rewrite calc_peak_total_empty
      by (right; right; apply length_zero_nil, Zu).
    split; [reflexivity|]. right; right; left. apply length_zero_nil, Zu. }
  assert (Hns : ns <> []) by (rewrite length_zero_nil; exact Pn).
  assert (Hew : ew <> []) by (rewrite length_zero_nil; exact Pe).
  assert (Hud : ud <> []) by (rewrite length_zero_nil; exact Pu).
  unfold calc_peak_total, np_add.
  destruct (broadcast Rplus (np_square ns) (np_square ew)) as [s1|e] eqn:E1;
    cbn [bind].
  - pose proof (broadcast_ok_length _ _ _ _ E1) as L1.
    rewrite !np_square_length in L1.
    destruct (broadcast Rplus s1 (np_square ud)) as [s2|e] eqn:E2;
      cbn [bind].
    + pose proof (broadcast_ok_length _ _ _ _ E2) as L2.
      rewrite np_square_length in L2.
      destruct (np_max_sqrt_ok s2) as [m Hm]; [lia|].
      rewrite Hm. repeat (split; [assumption|]).
      exists (Nat.max (length ns) (Nat.max (length ew) (length ud))). lia.
    + pose proof (broadcast_error_kind _ _ _ _ E2) as ->.
      split; [reflexivity|]. right; right; right.
      intros [n Hn].
      destruct (broadcast_ok Rplus s1 (np_square ud)) as [s2 Hs2];
        [rewrite np_square_length; lia | congruence].
  - pose proof (broadcast_error_kind _ _ _ _ E1) as ->.
    split; [reflexivity|]. right; right; right.
    intros [n Hn].
    destruct (broadcast_ok Rplus (np_square ns) (np_square ew)) as [s1 Hs1];
      [rewrite !np_square_length; lia | congruence].
Qed.

(** C8, as the code has it.  The peak functions contain no validation of
    their own; an input is rejected where numpy rejects it, always with
    Python's [ValueError] (the error kind the specification calls
    InvalidInput).  Each function fails in this way whenever a series is
    empty or the lengths are mismatched, except that a mismatch with a
    series of length one is no mismatch for numpy: when no series is empty
    and all lengths other than one agree, the series are broadcast and a
    value is returned.  Nothing else happens. *)
Theorem peaks_reject_invalid_input (ns ew ud : list R) :
  match calc_signed_peak ns with
  | Ok _ => ns <> []
  | Raise e => e = ValueError /\ ns = []
  end /\
  match calc_peak_horizontal ns ew with
  | Ok _ =>
      ns <> [] /\ ew <> [] /\
      (length ns = length ew \/ length ns = 1%nat \/ length ew = 1%nat)
  | Raise e =>
      e = ValueError /\
      (ns = [] \/ ew = [] \/
       (length ns <> length ew /\ length ns <> 1%nat /\ length ew <> 1%nat))
  end /\
  match calc_peak_total ns ew ud with
  | Ok _ =>
      ns <> [] /\ ew <> [] /\ ud <> [] /\
      exists n,
        (length ns = n \/ length ns = 1%nat) /\
        (length ew = n \/ length ew = 1%nat) /\
        (length ud = n \/ length ud = 1%nat)
  | Raise e =>
      e = ValueError /\
      (ns = [] \/ ew = [] \/ ud = [] \/
       ~ exists n,
           (length ns = n \/ length ns = 1%nat) /\
           (length ew = n \/ length ew = 1%nat) /\
           (length ud = n \/ length ud = 1%nat))
  end.
Proof.
  split; [|split].
  - destruct ns as [|x t]; simpl; [auto | discriminate].
  - apply calc_peak_horizontal_outcome.
  - apply calc_peak_total_outcome.
Qed.

Lemma peaks_reject_invalid_input_witness :
  calc_signed_peak series_none = Raise ValueError /\
  calc_peak_horizontal series_two series_three = Raise ValueError /\
  calc_peak_total series_single series_two series_three = Raise ValueError /\
  (exists h, calc_peak_horizontal series_single series_pair = Ok h).
Proof.
  destruct (peaks_reject_invalid_input series_none series_two series_three)
    as (H1 & _ & _).
  destruct (peaks_reject_invalid_input series_two series_three series_none)
    as (_ & H2 & _).
  destruct (peaks_reject_invalid_input series_single series_two series_three)
    as (_ & _ & H3).
  destruct (peaks_reject_invalid_input series_single series_pair series_none)
    as (_ & H4 & _).
  split; [|split; [|split]].
  - destruct (calc_signed_peak series_none) as [v|e].
    + exfalso. apply H1. reflexivity.
    + destruct H1 as [-> _]. reflexivity.
  - destruct (calc_peak_horizontal series_two series_three) as [v|e].
    + exfalso. simpl in H2. lia.
    + destruct H2 as [-> _]. reflexivity.
  - destruct (calc_peak_total series_single series_two series_three)
      as [v|e].
    + exfalso. destruct H3 as (_ & _ & _ & n & Hn). simpl in Hn. lia.
    + destruct H3 as [-> _]. reflexivity.
  - destruct (calc_peak_horizontal series_single series_pair) as [v|e].
    + eauto.
    + exfalso. destruct H4 as (_ & [E | [E | E]]).
      * discriminate E.
      * discriminate E.
      * simpl in E. lia.
Defined.

(** C8, as stated, fails: a series of length one is broadcast against a
    longer one, and the horizontal peak of series of lengths 1 and 2 is
    returned as a value. *)
Lemma mismatched_lengths_not_rejected :
  length series_single <> length series_pair /\
  calc_peak_horizontal series_single series_pair = Ok 5 /\
  ~ fails (calc_peak_horizontal series_single series_pair).
Proof.
  assert (H : calc_peak_horizontal series_single series_pair = Ok 5).
  { unfold calc_peak_horizontal, series_single, series_pair; simpl.
    replace (3 * 3 + 4 * 4) with (5 * 5) by ring.
    replace (3 * 3 + 0 * 0) with (3 * 3) by ring.
    rewrite !sqrt_square by lra.
    f_equal. apply Rmax_left. lra. }
  split; [simpl; lia|].
  split; [exact H|].
  eapply ok_not_fails; exact H.
Qed.

(** ** Ingestion: the components of a station have one length *)

Lemma calc_signed_peak_ok (S : list R) :
  S <> [] -> exists v, calc_signed_peak S = Ok v.
Proof.
  intros Hne.
  assert (Hne' : np_abs S <> []) by (destruct S; [congruence | discriminate]).
  destruct (np_argmax_spec _ Hne') as (r & Hr & _).
  exists (nth r S 0). unfold calc_signed_peak. rewrite Hr. reflexivity.
Qed.

Lemma station_peaks_ok (ns ew ud : list R) :
  ns <> [] -> length ns = length ew -> length ew = length ud ->
  exists pk, station_peaks ns ew ud = Ok pk.
Proof.
  intros Hne H1 H2.
  assert (Hew : ew <> []) by (destruct ns, ew; simpl in *; congruence).
  assert (Hud : ud <> []) by (destruct ew, ud; simpl in *; congruence).
  destruct (calc_signed_peak_ok ns Hne) as [a Ha].
  destruct (calc_signed_peak_ok ew Hew) as [b Hb].
  destruct (calc_signed_peak_ok ud Hud) as [c Hc].
  destruct (combined_peaks_spec ns ew ud Hne H1 H2) as (h & t & Hh & Ht & _).
  unfold station_peaks. rewrite Ha, Hb, Hc, Hh, Ht. simpl. eauto.
Qed.

Lemma station_peaks_empty (ns ew ud : list R) :
  ns = [] -> station_peaks ns ew ud = Raise ValueError.
Proof. intros ->. reflexivity. Qed.

Lemma firstn_min3_lengths (ew ns ud : list R) :
  let m := Nat.min (length ew) (Nat.min (length ns) (length ud)) in
  length (firstn m ew) = m /\ length (firstn m ns) = m /\
  length (firstn m ud) = m.
Proof.
  intros m. unfold m. rewrite !length_firstn. lia.
Qed.

Lemma process_nied_station_spec (ew ns ud : list R) :
  let m := Nat.min (length ew) (Nat.min (length ns) (length ud)) in
  (m = 0%nat -> process_nied_station ew ns ud = Raise ValueError) /\
  ((0 < m)%nat ->
   exists st,
     process_nied_station ew ns ud = Ok st /\
     wf_ns st = firstn m ns /\ wf_ew st = firstn m ew /\
     wf_ud st = firstn m ud /\
     length (wf_ns st) = m /\ length (wf_ew st) = m /\
     length (wf_ud st) = m /\
     station_peaks (wf_ns st) (wf_ew st) (wf_ud st)
       = Ok (max_acceleration st)).
Proof.
  intros m.
  destruct (firstn_min3_lengths ew ns ud) as (Le & Ln & Lu).
  fold m in Le, Ln, Lu.
  split.
  - intros Hm. unfold process_nied_station. fold m.
    rewrite station_peaks_empty; [reflexivity|].
    rewrite Hm. reflexivity.
  - intros Hm.
    destruct (station_peaks_ok (firstn m ns) (firstn m ew) (firstn m ud))
      as [pk Hpk].
    + intros E. rewrite E in Ln. simpl in Ln. lia.
    + congruence.
    + congruence.
    + eexists. unfold process_nied_station. fold m. rewrite Hpk. simpl.
      split; [reflexivity|]. simpl. auto 10.
Qed.

Lemma process_jma_station_spec (df : list (R * R * R)) :
  (df = [] -> process_jma_station df = Raise ValueError) /\
  (df <> [] ->
   exists st,
     process_jma_station df = Ok st /\
     length (wf_ns st) = length df /\ length (wf_ew st) = length df /\
     length (wf_ud st) = length df /\
     station_peaks (wf_ns st) (wf_ew st) (wf_ud st)
       = Ok (max_acceleration st)).
Proof.
  split.
  - intros ->. reflexivity.
  - intros Hne.
    destruct (station_peaks_ok (map (fun r => fst (fst r)) df)
                (map (fun r => snd (fst r)) df) (map (fun r => snd r) df))
      as [pk Hpk].
    + destruct df; [congruence | discriminate].
    + rewrite !length_map. reflexivity.
    + rewrite !length_map. reflexivity.
    + eexists. unfold process_jma_station. rewrite Hpk. simpl.
      split; [reflexivity|]. simpl. rewrite !length_map. auto.
Qed.

(** C9.  After ingestion the three columns of a station have one length,
    the minimum of the three parsed component lengths, and the peak
    summary is computed from these trimmed columns.  For a NIED station
    this is the effect of the trimming to [num_samples]; for a JMA station
    the columns come from one table and have its number of rows.  A
    station with an empty component is rejected with [ValueError]. *)
Theorem components_trimmed_to_common_length
    (ew ns ud : list R) (df : list (R * R * R)) :
  let m := Nat.min (length ew) (Nat.min (length ns) (length ud)) in
  ((m = 0%nat -> process_nied_station ew ns ud = Raise ValueError) /\
   ((0 < m)%nat ->
    exists st,
      process_nied_station ew ns ud = Ok st /\
      wf_ns st = firstn m ns /\ wf_ew st = firstn m ew /\
      wf_ud st = firstn m ud /\
      length (wf_ns st) = m /\ length (wf_ew st) = m /\
      length (wf_ud st) = m /\
      station_peaks (wf_ns st) (wf_ew st) (wf_ud st)
        = Ok (max_acceleration st))) /\
  ((df = [] -> process_jma_station df = Raise ValueError) /\
   (df <> [] ->
    exists st,
      process_jma_station df = Ok st /\
      length (wf_ns st) = length df /\ length (wf_ew st) = length df /\
      length (wf_ud st) = length df /\
      station_peaks (wf_ns st) (wf_ew st) (wf_ud st)
        = Ok (max_acceleration st))).
Proof.
  intros m. split.
  - apply process_nied_station_spec.
  - apply process_jma_station_spec.
Qed.

Lemma components_trimmed_to_common_length_witness :
  (exists st,
     process_nied_station series_three series_two series_tie = Ok st /\
     length (wf_ns st) = 2%nat /\ length (wf_ew st) = 2%nat /\
     length (wf_ud st) = 2%nat) /\
  (exists st,
     process_jma_station table_two = Ok st /\
     length (wf_ns st) = 2%nat /\ length (wf_ew st) = 2%nat /\
     length (wf_ud st) = 2%nat).
Proof.
  pose proof (components_trimmed_to_common_length
                series_three series_two series_tie table_two) as H.
  cbv zeta in H. destruct H as [[_ Hn] [_ Hj]].
  split.
  - destruct Hn as (st & Hst & _ & _ & _ & L1 & L2 & L3 & _).
    + simpl. lia.
    + exists st. simpl in L1, L2, L3. auto.
  - destruct Hj as (st & Hst & L1 & L2 & L3 & _).
    + discriminate.
    + exists st. simpl in L1, L2, L3. auto.
Defined.

(** ** FFT length of the response computation *)

Lemma fft_length_ok (n : nat) :
  (1 <= n)%nat -> fft_length n = Ok (2 ^ (Nat.log2_up n + 1))%nat.
Proof.
  intros Hn. unfold fft_length.
  destruct (Nat.eqb_spec n 0); [lia | reflexivity].
Qed.

Lemma fft_length_zero : fft_length 0 = Raise OverflowError.
Proof. reflexivity. Qed.

Lemma pow2_log2_up_bounds (n : nat) :
  (1 <= n)%nat ->
  (2 * n <= 2 ^ (Nat.log2_up n + 1))%nat /\
  (forall k, (2 * n <= 2 ^ k)%nat -> (2 ^ (Nat.log2_up n + 1) <= 2 ^ k)%nat).
Proof.
  intros Hn.
  assert (Hup : (n <= 2 ^ Nat.log2_up n)%nat).
  { apply (Nat.log2_log2_up_spec n). lia. }
  rewrite Nat.add_1_r, Nat.pow_succ_r'.
  split; [lia|].
  intros k Hk.
  destruct k as [|k].
  - simpl in Hk. lia.
  - rewrite Nat.pow_succ_r' in *.
    assert (Hle : (Nat.log2_up n <= k)%nat).
    { apply Nat.log2_up_le_pow2; lia. }
    pose proof (Nat.pow_le_mono_r 2 _ _ ltac:(lia) Hle). lia.
Qed.



Example fft_length_3 : fft_length 3 = Ok 8%nat.
Proof. reflexivity. Qed.

Example fft_length_4 : fft_length 4 = Ok 8%nat.
Proof. reflexivity. Qed.

Example fft_length_5 : fft_length 5 = Ok 16%nat.
Proof. reflexivity. Qed.

(** ** The transforms return, and with which lengths *)

Lemma np_rfft_ok (a : list R) (n : nat) :
  n <> 0%nat ->
  exists bins, np_rfft a n = Ok bins /\ length bins = (n / 2 + 1)%nat /\
               bins = map (dft_bin a n) (seq 0 (n / 2 + 1)).
Proof.
  intros Hn. unfold np_rfft.
  destruct (Nat.eqb_spec n 0); [contradiction|].
  eexists. split; [reflexivity|]. split; [|reflexivity].
  rewrite length_map, length_seq. reflexivity.
Qed.

Lemma np_rfftfreq_ok (n : nat) (d : R) :
  n <> 0%nat -> d <> 0 ->
  exists freq, np_rfftfreq n d = Ok freq /\ length freq = (n / 2 + 1)%nat.
Proof.
  intros Hn Hd. unfold np_rfftfreq.
  destruct (Req_EM_T (INR n * d) 0) as [E | _].
  - exfalso. apply Rmult_integral in E. destruct E as [E | E].
    + apply Hn. apply INR_eq. rewrite E. reflexivity.
    + contradiction.
  - eexists. split; [reflexivity|].
    rewrite length_map, length_seq. reflexivity.
Qed.

Lemma np_irfft_ok (X : list Cx.C) (n : nat) :
  n <> 0%nat ->
  exists x, np_irfft X n = Ok x /\ length x = n.
Proof.
  intros Hn. unfold np_irfft.
  destruct (Nat.eqb_spec n 0); [contradiction|].
  eexists. split; [reflexivity|].
  rewrite length_map, length_seq. reflexivity.
Qed.

Lemma np_max_abs_firstn_ok (l : list R) (n : nat) :
  (1 <= n)%nat -> (n <= length l)%nat ->
  exists m, np_max (np_abs (firstn n l)) = Ok m.
Proof.
  intros Hn Hl. apply np_max_nonempty.
  intros E. apply (f_equal (@length R)) in E.
  unfold np_abs in E. rewrite length_map, length_firstn in E.
  simpl in E. lia.
Qed.

Lemma py_div_ok (x y : R) : y <> 0 -> py_div x y = Ok (x / y).
Proof.
  intros Hy. unfold py_div. destruct (Req_EM_T y 0); [contradiction|].
  reflexivity.
Qed.

(** ** Response spectrum: the discarded assignment *)

Lemma response_spectra_dead_assignment
    (acc_fft : list Cx.C) (freq : list R) (omega_n h : R) :
  response_spectra acc_fft freq omega_n h
  = response_spectra_retained acc_fft freq omega_n h.
Proof. reflexivity. Qed.

(** C2.  The response computation, which first assigns an expression to
    [abs_acc_fft] and then overwrites it with [acc_fft - omega^2 disp_fft],
    returns on every input what the computation with the retained formula
    alone returns: the same triple [(SD, SV, SA)] or the same exception. *)
Theorem discarded_abs_acc_has_no_effect (acc : list R) (dt period h : R) :
  calculate_response_fft acc dt period h
  = calculate_response_fft_retained acc dt period h.
Proof.
  unfold calculate_response_fft, calculate_response_fft_retained.
  destruct (Req_EM_T period 0) as [_ | _]; [reflexivity|].
  destruct (fft_length (length acc)) as [n_fft|e]; [cbn [bind] | reflexivity].
  destruct (np_rfft acc n_fft) as [acc_fft|e]; [cbn [bind] | reflexivity].
  destruct (np_rfftfreq n_fft dt) as [freq|e]; [cbn [bind] | reflexivity].
  rewrite response_spectra_dead_assignment.
  destruct (response_spectra_retained acc_fft freq (2 * PI / period) h)
    as [[disp_fft vel_fft] abs_acc_fft].
  reflexivity.
Qed.

(** ** Response spectrum: the computation returns *)

Lemma calculate_response_fft_zero (acc : list R) (dt h : R) :
  acc <> [] ->
  exists sa,
    calculate_response_fft acc dt 0 h = Ok (0, 0, sa) /\
    np_max (np_abs acc) = Ok sa.
Proof.
  intros Hne.
  assert (Hne' : np_abs acc <> []) by (destruct acc; [congruence | discriminate]).
  destruct (np_max_nonempty _ Hne') as [sa Hsa].
  exists sa. split; [|exact Hsa].
  unfold calculate_response_fft.
  destruct (Req_EM_T 0 0) as [_ | N]; [|congruence].
  rewrite Hsa. reflexivity.
Qed.

Lemma calculate_response_fft_ok (acc : list R) (dt period h : R) :
  acc <> [] -> dt <> 0 ->
  exists r, calculate_response_fft acc dt period h = Ok r.
Proof.
  intros Hne Hdt.
  destruct (Req_EM_T period 0) as [-> | Hp].
  - destruct (calculate_response_fft_zero acc dt h Hne) as (sa & H & _).
    eauto.
  - assert (Hn : (1 <= length acc)%nat)
      by (destruct acc; [congruence | simpl; lia]).
    destruct (pow2_log2_up_bounds _ Hn) as [Hge _].
    set (N := (2 ^ (Nat.log2_up (length acc) + 1))%nat) in *.
    assert (HN : N <> 0%nat) by lia.
    unfold calculate_response_fft.
    destruct (Req_EM_T period 0) as [E | _]; [contradiction|].
    rewrite (fft_length_ok _ Hn). fold N. cbn [bind].
    destruct (np_rfft_ok acc N HN) as (bins & -> & _). cbn [bind].
    destruct (np_rfftfreq_ok N dt HN Hdt) as (freq & -> & _). cbn [bind].
    destruct (response_spectra bins freq (2 * PI / period) h)
      as [[disp_fft vel_fft] abs_acc_fft].
    destruct (np_irfft_ok disp_fft N HN) as (d & -> & Ld). cbn [bind].
    destruct (np_irfft_ok vel_fft N HN) as (v & -> & Lv). cbn [bind].
    destruct (np_irfft_ok abs_acc_fft N HN) as (a & -> & La). cbn [bind].
    destruct (np_max_abs_firstn_ok d (length acc)) as [sd ->]; [lia | lia|].
    destruct (np_max_abs_firstn_ok v (length acc)) as [sv ->]; [lia | lia|].
    destruct (np_max_abs_firstn_ok a (length acc)) as [sa ->]; [lia | lia|].
    cbn [bind]. eauto.
Qed.

Lemma response_loop_ok (acc : list R) (dt h : R) (periods : list R) :
  acc <> [] -> dt <> 0 ->
  exists rs, response_loop acc dt periods h = Ok rs.
Proof.
  intros Hne Hdt. induction periods as [|T rest IH]; simpl.
  - eauto.
  - destruct (calculate_response_fft_ok acc dt T h Hne Hdt) as [r ->].
    destruct IH as [rs ->]. simpl. eauto.
Qed.

Lemma response_loop_nth (acc : list R) (dt h : R) (periods : list R) :
  forall rs,
    response_loop acc dt periods h = Ok rs ->
    length rs = length periods /\
    forall i, (i < length periods)%nat ->
      calculate_response_fft acc dt (nth i periods 0) h
      = Ok (nth i rs (0, 0, 0)).
Proof.
  induction periods as [|T rest IH]; simpl; intros rs H.
  - injection H as <-. split; [reflexivity|]. intros i Hi. lia.
  - apply bind_ok in H. destruct H as (r & Hr & H).
    apply bind_ok in H. destruct H as (rs' & Hrs & H).
    injection H as <-.
    destruct (IH rs' Hrs) as [Hlen Hnth].
    split; [simpl; lia|].
    intros [|i] Hi; simpl.
    + exact Hr.
    + apply Hnth. lia.
Qed.

Lemma nth_zip_with {A B D : Type} (f : A -> B -> D) (da : A) (db : B) (d : D)
    (a : list A) :
  forall (b : list B) (i : nat),
    (i < length a)%nat -> (i < length b)%nat ->
    nth i (zip_with f a b) d = f (nth i a da) (nth i b db).
Proof.
  induction a as [|x a IH]; intros [|y b] [|i] Ha Hb; simpl in *;
    try lia; auto.
  apply IH; lia.
Qed.

Lemma nth_map_in_range {A B : Type} (f : A -> B) (d : A) (d' : B)
    (l : list A) :
  forall i, (i < length l)%nat -> nth i (map f l) d' = f (nth i l d).
Proof.
  induction l as [|x l IH]; intros [|i] Hi; simpl in *; try lia; auto.
  apply IH; lia.
Qed.

Lemma np_max_abs_bound (acc : list R) (sa : R) :
  np_max (np_abs acc) = Ok sa ->
  In sa (np_abs acc) /\ forall x, In x acc -> Rabs x <= sa.
Proof.
  intros H. split.
  - apply np_max_in, H.
  - intros x Hx. apply (np_max_ge _ _ H). unfold np_abs. apply in_map, Hx.
Qed.

(** ** Response spectrum at period zero *)

Lemma zero_period_entries (acc : list R) (dt h sa : R) :
  calculate_response_fft acc dt 0 h = Ok (0, 0, sa) ->
  forall periods i r,
    (i < length periods)%nat -> nth i periods 0 = 0 ->
    calculate_response_spectrum acc dt periods h = Ok r ->
    nth i (SD r) 0 = 0 /\ nth i (SV r) 0 = 0 /\
    nth i (SA r) 0 = sa /\ nth i (pSV r) 0 = 0.
Proof.
  intros Hz periods i r Hi Hp Hr.
  unfold calculate_response_spectrum in Hr.
  apply bind_ok in Hr. destruct Hr as (rs & Hrs & Hr).
  injection Hr as <-. simpl.
  destruct (response_loop_nth _ _ _ _ _ Hrs) as [Hlen Hnth].
  specialize (Hnth i Hi). rewrite Hp, Hz in Hnth.
  injection Hnth as Hnth.
  assert (Hi' : (i < length rs)%nat) by lia.
  rewrite !(nth_map_in_range _ (0, 0, 0)) by exact Hi'.
  rewrite <- Hnth. simpl.
  repeat split.
  unfold pseudo_velocity.
  rewrite (nth_zip_with _ 0 0) by (rewrite ?length_map; lia).
  rewrite Hp. destruct (Rlt_dec 0 0) as [L | _]; [lra | reflexivity].
Qed.

(** C3.  For a non-empty acceleration series and any damping ratio, the
    response at period zero is [SD = 0], [SV = 0] and [SA] the maximum
    absolute value of the input samples themselves, and wherever the
    period grid holds a zero the spectrum has these values and a
    pseudo-velocity of zero. *)
Theorem zero_period_response (acc : list R) (dt h : R) :
  acc <> [] ->
  exists sa,
    np_max (np_abs acc) = Ok sa /\
    In sa (np_abs acc) /\
    (forall x, In x acc -> Rabs x <= sa) /\
    calculate_response_fft acc dt 0 h = Ok (0, 0, sa) /\
    calculate_response_spectrum acc dt [0] h
    = Ok {| SD := [0]; SV := [0]; SA := [sa]; pSV := [0] |} /\
    (forall periods i r,
        (i < length periods)%nat -> nth i periods 0 = 0 ->
        calculate_response_spectrum acc dt periods h = Ok r ->
        nth i (SD r) 0 = 0 /\ nth i (SV r) 0 = 0 /\
        nth i (SA r) 0 = sa /\ nth i (pSV r) 0 = 0) /\
    (dt <> 0 ->
     forall periods,
     exists r, calculate_response_spectrum acc dt periods h = Ok r).
Proof.
  intros Hne.
  destruct (calculate_response_fft_zero acc dt h Hne) as (sa & Hz & Hsa).
  destruct (np_max_abs_bound acc sa Hsa) as [Hin Hbound].
  exists sa.
  split; [exact Hsa|]. split; [exact Hin|]. split; [exact Hbound|].
  split; [exact Hz|].
  split.
  - unfold calculate_response_spectrum. simpl response_loop.
    rewrite Hz. cbn [bind map fst snd]. unfold pseudo_velocity. simpl.
    destruct (Rlt_dec 0 0) as [L | _]; [lra | reflexivity].
  - split.
    + apply zero_period_entries. exact Hz.
    + intros Hdt periods.
      destruct (response_loop_ok acc dt h periods Hne Hdt) as [rs Hrs].
      unfold calculate_response_spectrum. rewrite Hrs. cbn [bind]. eauto.
Qed.

Lemma zero_period_response_witness :
  exists sa,
    np_max (np_abs series_tie) = Ok sa /\
    In sa (np_abs series_tie) /\
    (forall x, In x series_tie -> Rabs x <= sa) /\
    calculate_response_fft series_tie 1 0 (1 / 20) = Ok (0, 0, sa) /\
    calculate_response_spectrum series_tie 1 [0] (1 / 20)
    = Ok {| SD := [0]; SV := [0]; SA := [sa]; pSV := [0] |} /\
    (forall periods i r,
        (i < length periods)%nat -> nth i periods 0 = 0 ->
        calculate_response_spectrum series_tie 1 periods (1 / 20) = Ok r ->
        nth i (SD r) 0 = 0 /\ nth i (SV r) 0 = 0 /\
        nth i (SA r) 0 = sa /\ nth i (pSV r) 0 = 0) /\
    (1 <> 0 ->
     forall periods,
     exists r, calculate_response_spectrum series_tie 1 periods (1 / 20) = Ok r).
Proof.
  apply (zero_period_response series_tie 1 (1 / 20)). discriminate.
Defined.

(** ** Fourier amplitude spectrum *)

Lemma twiddle_dc (n j : nat) : twiddle n j 0 = Cx.mk 1 (- 0).
Proof.
  unfold twiddle. simpl.
  replace (2 * PI * INR j * 0 / INR n) with 0 by (unfold Rdiv; ring).
  rewrite cos_0, sin_0. reflexivity.
Qed.

Lemma dft_bin_dc_sum (a : list R) (n : nat) (l : list nat) :
  Csum (map (fun j => Cx.scale (nth j a 0) (twiddle n j 0)) l)
  = Cx.mk (np_sum (map (fun j => nth j a 0) l)) 0.
Proof.
  induction l as [|j l IH]; simpl.
  - reflexivity.
  - rewrite IH, twiddle_dc. unfold Cx.add, Cx.scale; simpl.
    f_equal; ring.
Qed.

Lemma map_nth_seq_id (a : list R) :
  map (fun j => nth j a 0) (seq 0 (length a)) = a.
Proof.
  apply (nth_ext _ _ 0 0).
  - rewrite length_map, length_seq. reflexivity.
  - intros k Hk. rewrite length_map, length_seq in Hk.
    rewrite (nth_map_in_range _ 0%nat) by (rewrite length_seq; exact Hk).
    rewrite seq_nth by exact Hk. reflexivity.
Qed.

(** The DC bin of the transform is the sum of the samples. *)
Lemma dft_bin_dc (a : list R) :
  dft_bin a (length a) 0 = Cx.mk (np_sum a) 0.
Proof.
  unfold dft_bin. rewrite dft_bin_dc_sum, map_nth_seq_id. reflexivity.
Qed.

Lemma np_sum_repeat (c : R) (n : nat) : np_sum (repeat c n) = c * INR n.
Proof.
  induction n as [|n IH].
  - simpl. ring.
  - rewrite S_INR. simpl repeat. simpl np_sum. rewrite IH. ring.
Qed.

Lemma inv_rate_nonzero (rate : R) : rate <> 0 -> 1 / rate <> 0.
Proof.
  intros H. unfold Rdiv. rewrite Rmult_1_l. apply Rinv_neq_0_compat, H.
Qed.

Lemma nonempty_length (A : Type) (l : list A) :
  l <> [] <-> (1 <= length l)%nat.
Proof.
  destruct l; simpl; split; intros H; try congruence; try lia.
Qed.

Lemma even_half_positive (n : nat) :
  (1 <= n)%nat -> n mod 2 = 0%nat -> (1 <= n / 2)%nat.
Proof.
  intros Hn He.
  pose proof (Nat.div_mod_eq n 2) as E. rewrite He in E.
  destruct (n / 2)%nat; lia.
Qed.

(** The two in-place halvings, cell by cell. *)
Lemma halved_cells (raw : list R) (n : nat) :
  (1 <= n)%nat -> length raw = (n / 2 + 1)%nat ->
  let amp1 := update_at 0 (fun x => x / 2) raw in
  let amp2 :=
    if Nat.eqb (n mod 2) 0
    then update_at (length amp1 - 1) (fun x => x / 2) amp1
    else amp1 in
  length amp2 = (n / 2 + 1)%nat /\
  forall k, (k <= n / 2)%nat ->
    nth k amp2 0 =
    if Nat.eqb k 0 then nth k raw 0 / 2
    else if Nat.eqb (n mod 2) 0 && Nat.eqb k (n / 2) then nth k raw 0 / 2
    else nth k raw 0.
Proof.
  intros Hn Hlen amp1 amp2.
  assert (L1 : length amp1 = (n / 2 + 1)%nat)
    by (unfold amp1; rewrite update_at_length; exact Hlen).
  assert (Hlast : (length amp1 - 1 = n / 2)%nat) by lia.
  split.
  - unfold amp2. destruct (Nat.eqb (n mod 2) 0);
      rewrite ?update_at_length; exact L1.
  - intros k Hk. unfold amp2. rewrite Hlast.
    destruct (Nat.eqb_spec (n mod 2) 0) as [He | Ho]; cbn [andb].
    + pose proof (even_half_positive n Hn He) as Hh.
      destruct (Nat.eqb_spec k 0) as [-> | Hk0].
      * rewrite update_at_nth_other by lia.
        unfold amp1. rewrite update_at_nth_same by lia. reflexivity.
      * destruct (Nat.eqb_spec k (n / 2)) as [-> | Hkn].
        -- rewrite update_at_nth_same by lia.
           unfold amp1. rewrite update_at_nth_other by lia. reflexivity.
        -- rewrite update_at_nth_other by lia.
           unfold amp1. rewrite update_at_nth_other by lia. reflexivity.
    + destruct (Nat.eqb_spec k 0) as [-> | Hk0].
      * unfold amp1. rewrite update_at_nth_same by lia. reflexivity.
      * unfold amp1. rewrite update_at_nth_other by lia. reflexivity.
Qed.

Lemma calculate_fourier_spectrum_spec (data : list R) (rate : R) :
  rate <> 0 -> data <> [] ->
  exists freq amp,
    calculate_fourier_spectrum data rate = Ok (freq, amp) /\
    length freq = (length data / 2 + 1)%nat /\
    length amp = (length data / 2 + 1)%nat /\
    forall k, (k <= length data / 2)%nat ->
      nth k amp 0 = single_sided_amplitude data (1 / rate) k.
Proof.
  intros Hrate Hne.
  assert (Hn : (1 <= length data)%nat) by (apply nonempty_length, Hne).
  assert (Hn0 : length data <> 0%nat) by lia.
  unfold calculate_fourier_spectrum.
  rewrite (py_div_ok 1 rate Hrate). cbn [bind].
  destruct (np_rfft_ok data (length data) Hn0) as (bins & -> & Lb & Eb).
  cbn [bind].
  destruct (np_rfftfreq_ok (length data) (1 / rate) Hn0
              (inv_rate_nonzero rate Hrate)) as (freq & -> & Lf).
  cbn [bind].
  set (raw := map (fun z => Cx.abs z * (1 / rate) * 2) bins).
  assert (Lraw : length raw = (length data / 2 + 1)%nat)
    by (unfold raw; rewrite length_map; exact Lb).
  destruct (halved_cells raw (length data) Hn Lraw) as [Lamp Hcells].
  eexists freq, _. split; [reflexivity|].
  split; [exact Lf|]. split; [exact Lamp|].
  intros k Hk. rewrite (Hcells k Hk).
  assert (Hraw : nth k raw 0
                 = Cx.abs (dft_bin data (length data) k) * (1 / rate) * 2).
  { unfold raw. rewrite (nth_map_in_range _ Cx.zero) by lia.
    rewrite Eb. rewrite (nth_map_in_range _ 0%nat) by (rewrite length_seq; lia).
    rewrite seq_nth by lia. reflexivity. }
  unfold single_sided_amplitude. rewrite Hraw. reflexivity.
Qed.

Lemma calculate_fourier_spectrum_empty (rate : R) :
  rate <> 0 -> calculate_fourier_spectrum [] rate = Raise ValueError.
Proof.
  intros Hrate. unfold calculate_fourier_spectrum.
  rewrite (py_div_ok 1 rate Hrate). reflexivity.
Qed.

Lemma amplitude_dc_constant (c dt : R) (n : nat) :
  Cx.abs (dft_bin (repeat c n) (length (repeat c n)) 0) * dt * 2 / 2
  = Rabs c * INR n * dt.
Proof.
  rewrite dft_bin_dc, Cx_abs_real, np_sum_repeat, Rabs_mult.
  rewrite (Rabs_pos_eq (INR n)) by apply pos_INR.
  field.
Qed.

(** C1.  For a positive sampling rate and [dt = 1/rate], the amplitude of
    the spectrum is [|F_k| dt 2] at every bin [k], except that it is
    halved at the DC bin and, when the number of samples is even, at the
    last (Nyquist) bin; hence a constant series of value [c] has the
    amplitude [|c| n dt] at bin 0.  ([F_k] is bin [k] of the transform of
    the series; an empty series has no transform and is rejected.) *)
Theorem fourier_amplitude_convention (data : list R) (rate : R) :
  0 < rate ->
  let n := length data in
  let dt := 1 / rate in
  let F := dft_bin data n in
  (data = [] -> calculate_fourier_spectrum data rate = Raise ValueError) /\
  (data <> [] ->
   exists freq amp,
     calculate_fourier_spectrum data rate = Ok (freq, amp) /\
     length amp = (n / 2 + 1)%nat /\
     nth 0 amp 0 = Cx.abs (F 0%nat) * dt * 2 / 2 /\
     (forall k, (0 < k <= n / 2)%nat ->
                ~ (n mod 2 = 0%nat /\ k = (n / 2)%nat) ->
                nth k amp 0 = Cx.abs (F k) * dt * 2) /\
     (n mod 2 = 0%nat ->
      nth (n / 2) amp 0 = Cx.abs (F (n / 2)%nat) * dt * 2 / 2) /\
     (forall c, data = repeat c n -> nth 0 amp 0 = Rabs c * INR n * dt)).
Proof.
  intros Hrate n dt F.
  assert (Hr0 : rate <> 0) by lra.
  split.
  - intros ->. apply calculate_fourier_spectrum_empty, Hr0.
  - intros Hne.
    assert (Hn : (1 <= n)%nat) by (apply nonempty_length, Hne).
    destruct (calculate_fourier_spectrum_spec data rate Hr0 Hne)
      as (freq & amp & Hcalc & _ & Lamp & Hnth).
    exists freq, amp.
    assert (Hdc : nth 0 amp 0 = Cx.abs (F 0%nat) * dt * 2 / 2).
    { rewrite Hnth by lia. reflexivity. }
    split; [exact Hcalc|]. split; [exact Lamp|]. split; [exact Hdc|].
    split; [|split].
    + intros k [Hk0 Hk] Hnot. rewrite Hnth by exact Hk.
      unfold single_sided_amplitude. fold n.
      destruct (Nat.eqb_spec k 0) as [E | _]; [lia|].
      destruct (Nat.eqb_spec (n mod 2) 0) as [He | _];
        destruct (Nat.eqb_spec k (n / 2)) as [Ek | _]; cbn [andb];
        try reflexivity.
      exfalso. apply Hnot. split; assumption.
    + intros He. rewrite Hnth by (fold n; lia).
      unfold single_sided_amplitude. fold n.
      pose proof (even_half_positive n Hn He) as Hh.
      destruct (Nat.eqb_spec (n / 2) 0) as [E | _]; [lia|].
      rewrite He, !Nat.eqb_refl. cbn [andb]. reflexivity.
    + intros c Hc. rewrite Hdc. unfold F, dt.
      pose proof (amplitude_dc_constant c (1 / rate) n) as A.
      rewrite <- Hc in A. exact A.
Qed.

Lemma fourier_amplitude_convention_witness :
  exists freq amp,
    calculate_fourier_spectrum series_constant 100 = Ok (freq, amp) /\
    length amp = 2%nat /\
    nth 0 amp 0 = Rabs 2 * INR 3 * (1 / 100).
Proof.
  pose proof (fourier_amplitude_convention series_constant 100 ltac:(lra))
    as H.
  cbv zeta in H. destruct H as [_ H].
  destruct H as (freq & amp & Hc & Hl & _ & _ & _ & Hconst).
  - discriminate.
  - exists freq, amp. split; [exact Hc|]. split; [exact Hl|].
    apply (Hconst 2). reflexivity.
Defined.

Lemma single_sided_amplitude_nonneg (data : list R) (dt : R) (k : nat) :
  0 <= dt -> 0 <= single_sided_amplitude data dt k.
Proof.
  intros Hdt. unfold single_sided_amplitude.
  pose proof (Cx_abs_nonneg (dft_bin data (length data) k)) as Ha.
  assert (Hp : 0 <= Cx.abs (dft_bin data (length data) k) * dt * 2).
  { apply Rmult_le_pos; [apply Rmult_le_pos; assumption | lra]. }
  destruct (Nat.eqb k 0); [lra|].
  destruct (Nat.eqb (length data mod 2) 0 && Nat.eqb k (length data / 2));
    lra.
Qed.

Lemma calculate_fourier_spectrum_ok_nonempty (data : list R) (rate : R)
    (freq amp : list R) :
  rate <> 0 -> calculate_fourier_spectrum data rate = Ok (freq, amp) ->
  data <> [].
Proof.
  intros Hrate H ->.
  rewrite (calculate_fourier_spectrum_empty rate Hrate) in H. discriminate.
Qed.

(** C10.  For a positive sampling rate, whenever the spectrum is returned
    (and it is for every non-empty series) the frequency and amplitude
    arrays have the same length and no amplitude is negative. *)
Theorem fourier_amplitude_nonnegative (data : list R) (rate : R) :
  0 < rate ->
  (data <> [] ->
   exists freq amp, calculate_fourier_spectrum data rate = Ok (freq, amp)) /\
  (forall freq amp,
      calculate_fourier_spectrum data rate = Ok (freq, amp) ->
      length freq = length amp /\ Forall (fun a => 0 <= a) amp).
Proof.
  intros Hrate.
  assert (Hr0 : rate <> 0) by lra.
  split.
  - intros Hne.
    destruct (calculate_fourier_spectrum_spec data rate Hr0 Hne)
      as (freq & amp & H & _).
    eauto.
  - intros freq amp H.
    pose proof (calculate_fourier_spectrum_ok_nonempty _ _ _ _ Hr0 H) as Hne.
    destruct (calculate_fourier_spectrum_spec data rate Hr0 Hne)
      as (freq' & amp' & H' & Lf & La & Hnth).
    rewrite H in H'. injection H' as <- <-.
    split; [congruence|].
    apply Forall_forall. intros a Hin.
    destruct (In_nth _ _ 0 Hin) as (k & Hk & <-).
    rewrite Hnth by lia.
    apply single_sided_amplitude_nonneg.
    unfold Rdiv. rewrite Rmult_1_l. left. apply Rinv_0_lt_compat, Hrate.
Qed.

Lemma fourier_amplitude_nonnegative_witness :
  exists freq amp,
    calculate_fourier_spectrum series_tie 100 = Ok (freq, amp) /\
    length freq = length amp /\ Forall (fun a => 0 <= a) amp.
Proof.
  destruct (fourier_amplitude_nonnegative series_tie 100 ltac:(lra))
    as [Hex Hall].
  destruct Hex as (freq & amp & H); [discriminate|].
  exists freq, amp. split; [exact H|]. apply Hall, H.
Defined.

(** ** Frequency-domain integration *)

Lemma np_sum_shift (l : list R) (c : R) :
  np_sum (map (fun v => v - c) l) = np_sum l - INR (length l) * c.
Proof.
  induction l as [|x l IH].
  - simpl. ring.
  - change (length (x :: l)) with (S (length l)). rewrite S_INR.
    simpl map. simpl np_sum. rewrite IH. ring.
Qed.

(** Subtracting its own mean leaves a non-empty array with mean zero. *)
Lemma np_mean_centered (l : list R) :
  l <> [] -> np_mean (map (fun v => v - np_mean l) l) = 0.
Proof.
  intros Hne. unfold np_mean at 1. rewrite np_sum_shift, length_map.
  assert (Hlen : INR (length l) <> 0).
  { apply not_0_INR. destruct l; [congruence | discriminate]. }
  unfold np_mean. field. exact Hlen.
Qed.

Lemma set_at_length {A : Type} (v : A) (l : list A) (i : nat) :
  length (set_at i v l) = length l.
Proof. unfold set_at. apply update_at_length. Qed.

Lemma np_zeros_ok (k : Z) :
  (0 <= k)%Z -> np_zeros k = Ok (repeat 0 (Z.to_nat k)).
Proof.
  intros Hk. unfold np_zeros.
  destruct (Z.ltb_spec k 0); [lia | reflexivity].
Qed.

Lemma assign_prefix_fits (dst src : list R) :
  (length src <= length dst)%nat ->
  assign_prefix dst (length src) src = Ok (src ++ skipn (length src) dst) /\
  length (src ++ skipn (length src) dst) = length dst.
Proof.
  intros Hle. unfold assign_prefix.
  rewrite Nat.min_l by exact Hle. rewrite Nat.eqb_refl.
  split; [reflexivity|].
  rewrite length_app, length_skipn. lia.
Qed.

Lemma set_at_hd {A : Type} (v : A) (l : list A) :
  l <> [] -> hd_error (set_at 0 v l) = Some v.
Proof.
  destruct l; [congruence | reflexivity].
Qed.

Lemma length_pos_nonempty {A : Type} (l : list A) :
  (1 <= length l)%nat -> l <> [].
Proof. destruct l; simpl; [lia | discriminate]. Qed.

Lemma integrate_fft_padded_steps_spec
    (data : list R) (rate : R) (pad_factor : Z) :
  data <> [] -> rate <> 0 -> (1 <= pad_factor)%Z ->
  exists s,
    integrate_fft_padded_steps data rate pad_factor = Ok s /\
    ig_n_padded s = Z.to_nat (pad_factor * Z.of_nat (length data)) /\
    (length data <= ig_n_padded s)%nat /\
    hd_error (ig_omega s) = Some 1 /\
    hd_error (ig_fft_vel s) = Some Cx.zero /\
    hd_error (ig_fft_disp s) = Some Cx.zero /\
    length (ig_velocity s) = length data /\
    length (ig_displacement s) = length data /\
    np_mean (ig_velocity s) = 0 /\
    np_mean (ig_displacement s) = 0.
Proof.
  intros Hne Hrate Hpad.
  assert (Hn : (1 <= length data)%nat) by (apply nonempty_length, Hne).
  set (P := Z.to_nat (pad_factor * Z.of_nat (length data))).
  assert (HnP : (length data <= P)%nat) by (unfold P; nia).
  assert (HP0 : P <> 0%nat) by lia.
  unfold integrate_fft_padded_steps. cbv zeta.
  rewrite (py_div_ok 1 rate Hrate). cbn [bind].
  rewrite np_zeros_ok by nia. cbn [bind]. fold P.
  destruct (assign_prefix_fits (repeat 0 P) data) as [-> Lpad].
  { rewrite repeat_length. exact HnP. }
  cbn [bind]. rewrite Lpad, repeat_length.
  destruct (np_rfft_ok (data ++ skipn (length data) (repeat 0 P)) P HP0)
    as (fft_acc & -> & Lacc & _).
  cbn [bind].
  destruct (np_rfftfreq_ok P (1 / rate) HP0 (inv_rate_nonzero rate Hrate))
    as (freq & -> & Lfreq).
  cbn [bind].
  set (omega := set_at 0 1 (map (fun f => 2 * PI * f) freq)).
  set (i_omega := map (fun w => Cx.mul Cx.j (Cx.of_R w)) omega).
  set (fft_vel0 := zip_with Cx.div fft_acc i_omega).
  set (fft_disp0 := zip_with Cx.div fft_vel0 i_omega).
  assert (Lomega : length omega = (P / 2 + 1)%nat).
  { unfold omega. rewrite set_at_length, length_map. exact Lfreq. }
  assert (Liom : length i_omega = (P / 2 + 1)%nat).
  { unfold i_omega. rewrite length_map. exact Lomega. }
  assert (Lvel : length fft_vel0 = (P / 2 + 1)%nat).
  { unfold fft_vel0. rewrite zip_with_length. lia. }
  assert (Ldisp : length fft_disp0 = (P / 2 + 1)%nat).
  { unfold fft_disp0. rewrite zip_with_length. lia. }
  destruct (np_irfft_ok (set_at 0 Cx.zero fft_vel0) P HP0) as (vp & -> & Lvp).
  cbn [bind].
  destruct (np_irfft_ok (set_at 0 Cx.zero fft_disp0) P HP0) as (dp & -> & Ldp).
  cbn [bind].
  assert (Lv : length (firstn (length data) vp) = length data)
    by (rewrite length_firstn; lia).
  assert (Ld : length (firstn (length data) dp) = length data)
    by (rewrite length_firstn; lia).
  eexists. split; [reflexivity|]. cbn [ig_n_padded ig_omega ig_fft_vel
    ig_fft_disp ig_velocity ig_displacement].
  split; [reflexivity|].
  split; [exact HnP|].
  split.
  { apply set_at_hd, length_pos_nonempty. rewrite length_map. lia. }
  split; [apply set_at_hd, length_pos_nonempty; lia|].
  split; [apply set_at_hd, length_pos_nonempty; lia|].
  split; [rewrite length_map; exact Lv|].
  split; [rewrite length_map; exact Ld|].
  split; apply np_mean_centered, length_pos_nonempty; lia.
Qed.



(** ** Worked examples *)

Ltac eval_abs := unfold Rabs; repeat (destruct (Rcase_abs _); try lra).
Ltac eval_scan := repeat (destruct (Rlt_dec _ _); try lra).

(** Among samples of equal absolute value the first one is returned, with
    its sign. *)
Example calc_signed_peak_tie : calc_signed_peak series_tie = Ok (-3).
Proof.
  unfold calc_signed_peak, series_tie, np_abs. simpl.
  eval_abs; eval_scan; reflexivity.
Qed.

Lemma argmax_from_lt (bi i : nat) (b x : R) (t : list R) :
  b < x -> argmax_from bi b i (x :: t) = argmax_from i x (S i) t.
Proof. intros H. simpl. destruct (Rlt_dec b x); [reflexivity | contradiction]. Qed.

Lemma argmax_from_ge (bi i : nat) (b x : R) (t : list R) :
  x <= b -> argmax_from bi b i (x :: t) = argmax_from bi b (S i) t.
Proof. intros H. simpl. destruct (Rlt_dec b x); [lra | reflexivity]. Qed.

(** The end-to-end scenario of the specification: the signed peak of the
    impulse is 10. *)
Example calc_signed_peak_impulse : calc_signed_peak series_impulse = Ok 10.
Proof.
  unfold calc_signed_peak, series_impulse, np_abs. cbn [map np_argmax bind].
  rewrite Rabs_R0, (Rabs_pos_eq 10) by lra.
  repeat first [ rewrite argmax_from_ge by lra
               | rewrite argmax_from_lt by lra ].
  reflexivity.
Qed.

Example calc_signed_peak_none : calc_signed_peak series_none = Raise ValueError.
Proof. reflexivity. Qed.

Example process_nied_station_none :
  process_nied_station series_three series_none series_two = Raise ValueError.
Proof. reflexivity. Qed.

Example integrate_zero_pad_factor :
  integrate_fft_padded series_two 100 0 = Raise ValueError.
Proof.
  unfold integrate_fft_padded, integrate_fft_padded_steps.
  rewrite (py_div_ok 1 100) by lra. reflexivity.
Qed.

Example calculate_response_fft_empty (dt h : R) :
  calculate_response_fft [] dt 1 h = Raise OverflowError.
Proof.
  unfold calculate_response_fft.
  destruct (Req_EM_T 1 0) as [E | _]; [lra | reflexivity].
Qed.

(* ================================================================== *)
(** * Further properties of the processing functions *)

(** ** Fourier spectrum: outcome, frequency grid, scaling *)

Lemma calculate_fourier_spectrum_zero_rate (data : list R) :
  calculate_fourier_spectrum data 0 = Raise ZeroDivisionError.
Proof.
  unfold calculate_fourier_spectrum, py_div.
  destruct (Req_EM_T 0 0) as [_ | N]; [reflexivity | congruence].
Qed.

(** The spectrum is returned exactly for a non-empty series and a non-zero
    sampling rate; a zero rate raises [ZeroDivisionError] whatever the
    series, and an empty series with a non-zero rate raises [ValueError].
    A returned spectrum has [n//2 + 1] frequencies and amplitudes. *)
Theorem fourier_spectrum_outcome (data : list R) (rate : R) :
  match calculate_fourier_spectrum data rate with
  | Ok (freq, amp) =>
      rate <> 0 /\ data <> [] /\
      length freq = (length data / 2 + 1)%nat /\
      length amp = (length data / 2 + 1)%nat
  | Raise ZeroDivisionError => rate = 0
  | Raise ValueError => rate <> 0 /\ data = []
  | Raise OverflowError => False
  end.
Proof.
  destruct (Req_EM_T rate 0) as [-> | Hrate].
  - rewrite calculate_fourier_spectrum_zero_rate. reflexivity.
  - destruct data as [|x data].
    + rewrite (calculate_fourier_spectrum_empty rate Hrate). auto.
    + destruct (calculate_fourier_spectrum_spec (x :: data) rate Hrate)
        as (freq & amp & -> & Lf & La & _); [discriminate|].
      repeat split; auto. discriminate.
Qed.

Lemma calculate_fourier_spectrum_freq (data : list R) (rate : R) :
  rate <> 0 -> data <> [] ->
  exists amp,
    calculate_fourier_spectrum data rate
    = Ok (map (fun k => INR k * (1 / (INR (length data) * (1 / rate))))
              (seq 0 (length data / 2 + 1)), amp).
Proof.
  intros Hrate Hne.
  assert (Hn0 : length data <> 0%nat)
    by (apply nonempty_length in Hne; lia).
  unfold calculate_fourier_spectrum.
  rewrite (py_div_ok 1 rate Hrate). cbn [bind].
  destruct (np_rfft_ok data (length data) Hn0) as (bins & -> & _).
  cbn [bind]. unfold np_rfftfreq.
  destruct (Req_EM_T (INR (length data) * (1 / rate)) 0) as [E | _].
  - exfalso. apply Rmult_integral in E. destruct E as [E | E].
    + apply Hn0, INR_eq. rewrite E. reflexivity.
    + apply (inv_rate_nonzero rate Hrate), E.
  - cbn [bind]. eexists. reflexivity.
Qed.





(** *** Scaling the input *)

Lemma nth_scaled (c : R) (a : list R) (k : nat) :
  nth k (map (Rmult c) a) 0 = c * nth k a 0.
Proof.
  rewrite <- (Rmult_0_r c) at 1. apply map_nth.
Qed.

Lemma Csum_scale (c : R) (f : nat -> Cx.C) (l : list nat) :
  Csum (map (fun k => Cx.scale c (f k)) l) = Cx.scale c (Csum (map f l)).
Proof.
  induction l as [|k l IH]; simpl.
  - unfold Cx.scale, Cx.zero; simpl. f_equal; ring.
  - rewrite IH. unfold Cx.add, Cx.scale; simpl. f_equal; ring.
Qed.

Lemma dft_bin_scale (c : R) (a : list R) (n k : nat) :
  dft_bin (map (Rmult c) a) n k = Cx.scale c (dft_bin a n k).
Proof.
  unfold dft_bin. rewrite <- Csum_scale. f_equal.
  apply map_ext. intros i. rewrite nth_scaled.
  unfold Cx.scale; simpl. f_equal; ring.
Qed.

Lemma Cx_abs_scale (c : R) (z : Cx.C) :
  Cx.abs (Cx.scale c z) = Rabs c * Cx.abs z.
Proof.
  unfold Cx.abs, Cx.norm2, Cx.scale; simpl.
  replace (c * Cx.re z * (c * Cx.re z) + c * Cx.im z * (c * Cx.im z))
    with (Rsqr c * (Cx.re z * Cx.re z + Cx.im z * Cx.im z))
    by (unfold Rsqr; ring).
  rewrite sqrt_mult; [rewrite sqrt_Rsqr_abs; reflexivity | apply Rle_0_sqr|].
  nra.
Qed.

Lemma np_rfft_scale (c : R) (a : list R) (n : nat) :
  np_rfft (map (Rmult c) a) n
  = match np_rfft a n with
    | Ok bins => Ok (map (Cx.scale c) bins)
    | Raise e => Raise e
    end.
Proof.
  unfold np_rfft. destruct (Nat.eqb n 0); [reflexivity|].
  f_equal. rewrite map_map. apply map_ext. intros k. apply dft_bin_scale.
Qed.

Lemma update_at_map {A : Type} (f g : A -> A) (l : list A) :
  (forall x, f (g x) = g (f x)) ->
  forall i, update_at i f (map g l) = map g (update_at i f l).
Proof.
  intros Hfg. induction l as [|x l IH]; intros [|i]; simpl; auto.
  - rewrite Hfg. reflexivity.
  - rewrite IH. reflexivity.
Qed.

(** Multiplying the samples by [c] multiplies every amplitude by [|c|] and
    leaves the frequencies as they are; an input that is rejected stays
    rejected with the same exception. *)
Theorem fourier_amplitude_scales (data : list R) (rate c : R) :
  calculate_fourier_spectrum (map (Rmult c) data) rate
  = match calculate_fourier_spectrum data rate with
    | Ok (freq, amp) => Ok (freq, map (Rmult (Rabs c)) amp)
    | Raise e => Raise e
    end.
Proof.
  unfold calculate_fourier_spectrum. rewrite length_map.
  destruct (py_div 1 rate) as [dt|e]; [cbn [bind] | reflexivity].
  rewrite np_rfft_scale.
  destruct (np_rfft data (length data)) as [bins|e];
    [cbn [bind] | reflexivity].
  destruct (np_rfftfreq (length data) dt) as [freq|e];
    [cbn [bind] | reflexivity].
  cbv zeta. f_equal. f_equal.
  assert (Hhalf : forall x, Rmult (Rabs c) x / 2 = Rabs c * (x / 2))
    by (intros x; unfold Rdiv; ring).
  assert (Hraw : map (fun z => Cx.abs z * dt * 2) (map (Cx.scale c) bins)
                 = map (Rmult (Rabs c))
                       (map (fun z => Cx.abs z * dt * 2) bins)).
  { rewrite !map_map. apply map_ext. intros z.
    rewrite Cx_abs_scale. ring. }
  rewrite Hraw.
  rewrite (update_at_map (fun x => x / 2) (Rmult (Rabs c))) by exact Hhalf.
  destruct (Nat.eqb (length data mod 2) 0); [|reflexivity].
  rewrite length_map.
  rewrite (update_at_map (fun x => x / 2) (Rmult (Rabs c))) by exact Hhalf.
  reflexivity.
Qed.

(** *** The table of one station *)

Lemma data_frame_same_length (c : list R) (rest : list (list R)) :
  Forall (fun c' => length c' = length c) rest ->
  data_frame (c :: rest) = Ok (c :: rest).
Proof.
  intros H. unfold data_frame.
  replace (forallb (fun c' => Nat.eqb (length c') (length c)) rest) with true;
    [reflexivity|].
  symmetry. apply forallb_forall. intros c' Hin.
  rewrite Forall_forall in H. apply Nat.eqb_eq, H, Hin.
Qed.

(** On three non-empty columns of one length (as [waveform.csv] has them)
    and a non-zero sampling rate, the Fourier table is produced; all four
    of its columns have [n//2 + 1] rows, and the frequency column, which
    is computed from the NS component only, is also the frequency grid of
    the EW and UD spectra. *)
Theorem fourier_station_table (ns ew ud : list R) (rate : R) :
  rate <> 0 -> ns <> [] -> length ns = length ew -> length ew = length ud ->
  exists freq a_ns a_ew a_ud,
    fourier_station ns ew ud rate = Ok [freq; a_ns; a_ew; a_ud] /\
    calculate_fourier_spectrum ns rate = Ok (freq, a_ns) /\
    calculate_fourier_spectrum ew rate = Ok (freq, a_ew) /\
    calculate_fourier_spectrum ud rate = Ok (freq, a_ud) /\
    Forall (fun col => length col = (length ns / 2 + 1)%nat)
           [freq; a_ns; a_ew; a_ud].
Proof.
  intros Hrate Hns H1 H2.
  assert (Hew : ew <> []) by (destruct ns, ew; simpl in *; congruence).
  assert (Hud : ud <> []) by (destruct ew, ud; simpl in *; congruence).
  destruct (calculate_fourier_spectrum_freq ns rate Hrate Hns) as [a_ns Fns].
  destruct (calculate_fourier_spectrum_freq ew rate Hrate Hew) as [a_ew Few].
  destruct (calculate_fourier_spectrum_freq ud rate Hrate Hud) as [a_ud Fud].
  rewrite <- H2, <- H1 in Fud. rewrite <- H1 in Few.
  set (freq := map (fun k => INR k * (1 / (INR (length ns) * (1 / rate))))
                   (seq 0 (length ns / 2 + 1))) in *.
  assert (Lf : length freq = (length ns / 2 + 1)%nat)
    by (unfold freq; rewrite length_map, length_seq; reflexivity).
  assert (Lns : length a_ns = (length ns / 2 + 1)%nat).
  { destruct (calculate_fourier_spectrum_spec ns rate Hrate Hns)
      as (f & a & E & _ & La & _). rewrite Fns in E. injection E as _ <-.
    exact La. }
  assert (Lew : length a_ew = (length ns / 2 + 1)%nat).
  { destruct (calculate_fourier_spectrum_spec ew rate Hrate Hew)
      as (f & a & E & _ & La & _). rewrite Few in E. injection E as _ <-.
    rewrite H1. exact La. }
  assert (Lud : length a_ud = (length ns / 2 + 1)%nat).
  { destruct (calculate_fourier_spectrum_spec ud rate Hrate Hud)
      as (f & a & E & _ & La & _). rewrite Fud in E. injection E as _ <-.
    rewrite H1, H2. exact La. }
  exists freq, a_ns, a_ew, a_ud.
  split.
  - unfold fourier_station. rewrite Fns, Few, Fud. cbn [bind fst snd].
    apply data_frame_same_length. repeat constructor; congruence.
  - repeat split; auto; repeat constructor; assumption.
Qed.

Lemma fourier_station_table_witness :
  exists freq a_ns a_ew a_ud,
    fourier_station series_tie series_tie series_tie 100
    = Ok [freq; a_ns; a_ew; a_ud] /\
    Forall (fun col => length col = 3%nat) [freq; a_ns; a_ew; a_ud].
Proof.
  destruct (fourier_station_table series_tie series_tie series_tie 100)
    as (freq & a_ns & a_ew & a_ud & H & _ & _ & _ & HL).
  - lra.
  - discriminate.
  - reflexivity.
  - reflexivity.
  - exists freq, a_ns, a_ew, a_ud. split; [exact H | exact HL].
Defined.

(** ** Peak values: consistency of the summary, symmetry, scaling *)

Lemma calc_signed_peak_spec (S : list R) :
  S <> [] ->
  exists i,
    (i < length S)%nat /\ calc_signed_peak S = Ok (nth i S 0) /\
    forall k, (k < length S)%nat -> Rabs (nth k S 0) <= Rabs (nth i S 0).
Proof.
  intros Hne.
  assert (Hne' : np_abs S <> []) by (destruct S; [congruence | discriminate]).
  destruct (np_argmax_spec _ Hne') as (r & Hr & Hlt & Hmax & _).
  assert (Hlen : length (np_abs S) = length S) by apply length_map.
  rewrite Hlen in *.
  exists r. split; [exact Hlt|]. split.
  - unfold calc_signed_peak. rewrite Hr. reflexivity.
  - intros k Hk. rewrite <- !nth_np_abs. apply Hmax, Hk.
Qed.

Lemma nth_combined2 (a b : list R) (k : nat) :
  (k < length a)%nat -> length a = length b ->
  nth k (np_sqrt (zip_with Rplus (np_square a) (np_square b))) 0
  = sqrt (nth k a 0 * nth k a 0 + nth k b 0 * nth k b 0).
Proof.
  intros Hk Hab. unfold np_sqrt, np_square.
  rewrite (nth_map_in_range _ 0)
    by (rewrite zip_with_length, !length_map; lia).
  rewrite (nth_zip_with _ 0 0) by (rewrite length_map; lia).
  rewrite !(nth_map_in_range _ 0) by lia. reflexivity.
Qed.


Lemma Rabs_le_sqrt2 (x y : R) : Rabs x <= sqrt (x * x + y * y).
Proof.
  rewrite <- sqrt_Rsqr_abs. apply sqrt_le_1_alt. unfold Rsqr. nra.
Qed.

Lemma sqrt2_le_sum (x y : R) : sqrt (x * x + y * y) <= Rabs x + Rabs y.
Proof.
  pose proof (Rabs_pos x). pose proof (Rabs_pos y).
  rewrite <- (sqrt_square (Rabs x + Rabs y)) by lra.
  apply sqrt_le_1_alt.
  replace (x * x) with (Rabs x * Rabs x)
    by (unfold Rabs; destruct (Rcase_abs x); ring).
  replace (y * y) with (Rabs y * Rabs y)
    by (unfold Rabs; destruct (Rcase_abs y); ring).
  nra.
Qed.






Lemma zip_with_comm {A D : Type} (f : A -> A -> D) (a : list A) :
  (forall x y, f x y = f y x) ->
  forall b, zip_with f a b = zip_with f b a.
Proof.
  intros Hf. induction a as [|x a IH]; intros [|y b]; simpl; auto.
  rewrite Hf, IH. reflexivity.
Qed.

Lemma broadcast_comm (f : R -> R -> R) (a b : list R) :
  (forall x y, f x y = f y x) -> broadcast f a b = broadcast f b a.
Proof.
  intros Hf. unfold broadcast. rewrite (Nat.eqb_sym (length b) (length a)).
  destruct (Nat.eqb (length a) (length b)) eqn:E.
  - rewrite (zip_with_comm f a Hf b). reflexivity.
  - destruct a as [|x [|x' a]]; destruct b as [|y [|y' b]];
      simpl in E; try discriminate; cbv iota beta; try reflexivity;
      f_equal; apply map_ext; intros z; apply Hf.
Qed.

(** The horizontal peak does not depend on the order of its two arguments,
    whatever they are: the same value or the same exception. *)
Theorem calc_peak_horizontal_symmetric (ns ew : list R) :
  calc_peak_horizontal ns ew = calc_peak_horizontal ew ns.
Proof.
  unfold calc_peak_horizontal, np_add.
  rewrite (broadcast_comm Rplus (np_square ns) (np_square ew) Rplus_comm).
  reflexivity.
Qed.


Lemma np_abs_scale (c : R) (l : list R) :
  np_abs (map (Rmult c) l) = map (Rmult (Rabs c)) (np_abs l).
Proof.
  unfold np_abs. rewrite !map_map. apply map_ext. intros x.
  apply Rabs_mult.
Qed.


Lemma fold_Rmax_scale (k : R) (t : list R) :
  0 <= k ->
  forall x, fold_left Rmax (map (Rmult k) t) (k * x)
            = k * fold_left Rmax t x.
Proof.
  intros Hk. induction t as [|y t IH]; intros x; simpl.
  - reflexivity.
  - rewrite RmaxRmult by exact Hk. apply IH.
Qed.

Lemma np_max_scale (k : R) (l : list R) :
  0 <= k ->
  np_max (map (Rmult k) l)
  = match np_max l with
    | Ok m => Ok (k * m)
    | Raise e => Raise e
    end.
Proof.
  intros Hk. destruct l as [|x t]; simpl; [reflexivity|].
  f_equal. apply fold_Rmax_scale, Hk.
Qed.

Lemma zip_with_plus_scale (k : R) (a : list R) :
  forall b, zip_with Rplus (map (Rmult k) a) (map (Rmult k) b)
            = map (Rmult k) (zip_with Rplus a b).
Proof.
  induction a as [|x a IH]; intros [|y b]; simpl; auto.
  rewrite IH. f_equal. ring.
Qed.

Lemma broadcast_plus_scale (k : R) (a b : list R) :
  broadcast Rplus (map (Rmult k) a) (map (Rmult k) b)
  = match broadcast Rplus a b with
    | Ok s => Ok (map (Rmult k) s)
    | Raise e => Raise e
    end.
Proof.
  unfold broadcast. rewrite !length_map.
  destruct (Nat.eqb (length a) (length b)).
  - rewrite zip_with_plus_scale. reflexivity.
  - destruct a as [|x [|x' a]]; destruct b as [|y [|y' b]];
      simpl; try reflexivity; apply (f_equal (@Ok (list R)));
      repeat (apply (f_equal2 (@cons R)); [ring|]); try reflexivity;
      rewrite !map_map; apply map_ext; intros z; ring.
Qed.

Lemma np_square_scale (c : R) (l : list R) :
  np_square (map (Rmult c) l) = map (Rmult (c * c)) (np_square l).
Proof.
  unfold np_square. rewrite !map_map. apply map_ext. intros x. ring.
Qed.

Lemma np_sqrt_scale (c : R) (l : list R) :
  np_sqrt (map (Rmult (c * c)) l) = map (Rmult (Rabs c)) (np_sqrt l).
Proof.
  unfold np_sqrt. rewrite !map_map. apply map_ext. intros x.
  rewrite sqrt_mult_alt by nra.
  rewrite <- sqrt_Rsqr_abs. reflexivity.
Qed.

(** Multiplying all components by [c] multiplies the horizontal and the
    three-component peak by [|c|]. *)
Theorem combined_peaks_scale (ns ew ud : list R) (c : R) :
  calc_peak_horizontal (map (Rmult c) ns) (map (Rmult c) ew)
  = match calc_peak_horizontal ns ew with
    | Ok h => Ok (Rabs c * h)
    | Raise e => Raise e
    end /\
  calc_peak_total (map (Rmult c) ns) (map (Rmult c) ew) (map (Rmult c) ud)
  = match calc_peak_total ns ew ud with
    | Ok t => Ok (Rabs c * t)
    | Raise e => Raise e
    end.
Proof.
  split.
  - unfold calc_peak_horizontal, np_add.
    rewrite !np_square_scale, broadcast_plus_scale.
    destruct (broadcast Rplus (np_square ns) (np_square ew)) as [s|e];
      [cbn [bind] | reflexivity].
    rewrite np_sqrt_scale. apply np_max_scale, Rabs_pos.
  - unfold calc_peak_total, np_add.
    rewrite !np_square_scale, broadcast_plus_scale.
    destruct (broadcast Rplus (np_square ns) (np_square ew)) as [s|e];
      [cbn [bind] | reflexivity].
    rewrite broadcast_plus_scale.
    destruct (broadcast Rplus s (np_square ud)) as [s2|e];
      [cbn [bind] | reflexivity].
    rewrite np_sqrt_scale. apply np_max_scale, Rabs_pos.
Qed.

(** ** Ingestion: what the trimming keeps *)

(** The trimming of a NIED station only drops samples at the end: each
    parsed component is its column of the table followed by the dropped
    tail, and at least one component loses nothing. *)
Theorem nied_trimming_keeps_prefix (ew ns ud : list R) :
  ew <> [] -> ns <> [] -> ud <> [] ->
  exists st te tn tu,
    process_nied_station ew ns ud = Ok st /\
    ew = wf_ew st ++ te /\ ns = wf_ns st ++ tn /\ ud = wf_ud st ++ tu /\
    (te = [] \/ tn = [] \/ tu = []).
Proof.
  intros He Hn Hu.
  apply nonempty_length in He, Hn, Hu.
  set (m := Nat.min (length ew) (Nat.min (length ns) (length ud))).
  destruct (process_nied_station_spec ew ns ud) as [_ H].
  destruct H as (st & Hst & En & Ee & Eu & _); [lia|].
  fold m in En, Ee, Eu.
  exists st, (skipn m ew), (skipn m ns), (skipn m ud).
  split; [exact Hst|].
  rewrite En, Ee, Eu, !firstn_skipn.
  split; [reflexivity|]. split; [reflexivity|]. split; [reflexivity|].
  assert (Hm : m = length ew \/ m = length ns \/ m = length ud)
    by (unfold m; lia).
  destruct Hm as [E | [E | E]]; rewrite E, skipn_all; auto.
Qed.

Lemma nied_trimming_keeps_prefix_witness :
  exists st te tn tu,
    process_nied_station series_three series_two series_tie = Ok st /\
    series_three = wf_ew st ++ te /\ series_two = wf_ns st ++ tn /\
    series_tie = wf_ud st ++ tu /\
    (te = [] \/ tn = [] \/ tu = []).
Proof.
  apply (nied_trimming_keeps_prefix series_three series_two series_tie);
    discriminate.
Defined.

(** ** Baseline correction *)









(** A window of no sample leaves no real-valued result: with
    [0 <= window_sec * sampling_rate < 1] the window length is
    [int(...) = 0], the baseline is the mean of nothing, and a non-empty
    series has no corrected series. *)
Theorem baseline_empty_window
    (data : list R) (sampling_rate window_sec : R) :
  data <> [] -> 0 <= window_sec * sampling_rate < 1 ->
  apply_baseline_correction data sampling_rate window_sec = None.
Proof.
  intros Hne [H0 H1].
  unfold apply_baseline_correction. cbv zeta.
  assert (Hz : py_int (window_sec * sampling_rate) = 0%Z).
  { unfold py_int. destruct (Rle_dec 0 _) as [_ | N]; [|contradiction].
    apply Zfloor_eq. simpl. lra. }
  rewrite Hz.
  replace (Z.min 0 (Z.of_nat (length data))) with 0%Z by lia.
  unfold py_slice_to. simpl.
  destruct data; [congruence | reflexivity].
Qed.

Lemma baseline_empty_window_witness :
  apply_baseline_correction series_tie (1 / 2) BASELINE_WINDOW_SEC = None.
Proof.
  apply (baseline_empty_window series_tie (1 / 2) BASELINE_WINDOW_SEC).
  - discriminate.
  - unfold BASELINE_WINDOW_SEC. lra.
Defined.

(** ** Frequency-domain integration: outcome and scaling *)

Lemma integrate_fft_padded_invalid
    (data : list R) (rate : R) (pad_factor : Z) :
  rate <> 0 -> data = [] \/ (pad_factor <= 0)%Z ->
  integrate_fft_padded_steps data rate pad_factor = Raise ValueError.
Proof.
  intros Hrate Hbad.
  unfold integrate_fft_padded_steps. cbv zeta.
  rewrite (py_div_ok 1 rate Hrate). cbn [bind].
  unfold np_zeros.
  destruct (Z.ltb_spec (pad_factor * Z.of_nat (length data)) 0) as [L | L];
    [reflexivity|].
  assert (E : (pad_factor * Z.of_nat (length data) = 0)%Z).
  { destruct Hbad as [-> | Hp]; [simpl; lia | nia]. }
  rewrite E. cbn [bind Z.to_nat repeat].
  unfold assign_prefix. cbn [length]. rewrite Nat.min_0_r.
  destruct data as [|x [|x' data]]; reflexivity.
Qed.

(** The integrator returns exactly for a non-empty series, a non-zero
    sampling rate and a padding factor of at least one, and then both
    series have the length of the input; a zero rate raises
    [ZeroDivisionError], and otherwise an empty series or a padding factor
    below one raises [ValueError]. *)
Theorem integrate_fft_padded_outcome
    (data : list R) (rate : R) (pad_factor : Z) :
  match integrate_fft_padded data rate pad_factor with
  | Ok (velocity, displacement) =>
      rate <> 0 /\ data <> [] /\ (1 <= pad_factor)%Z /\
      length velocity = length data /\ length displacement = length data
  | Raise ZeroDivisionError => rate = 0
  | Raise ValueError => rate <> 0 /\ (data = [] \/ (pad_factor <= 0)%Z)
  | Raise OverflowError => False
  end.
Proof.
  unfold integrate_fft_padded.
  destruct (Req_EM_T rate 0) as [-> | Hrate].
  - unfold integrate_fft_padded_steps, py_div.
    destruct (Req_EM_T 0 0) as [_ | N]; [reflexivity | congruence].
  - destruct data as [|x data].
    + rewrite integrate_fft_padded_invalid by auto. simpl. auto.
    + destruct (Z_le_gt_dec 1 pad_factor) as [Hp | Hp].
      * destruct (integrate_fft_padded_steps_spec (x :: data) rate pad_factor)
          as (s & -> & _ & _ & _ & _ & _ & Lv & Ld & _); try assumption.
        { discriminate. }
        cbn [bind]. repeat split; auto. discriminate.
      * rewrite integrate_fft_padded_invalid by (auto; right; lia).
        simpl. split; [assumption | right; lia].
Qed.

Lemma Cx_scale_zero (c : R) : Cx.scale c Cx.zero = Cx.zero.
Proof. unfold Cx.scale, Cx.zero; simpl. f_equal; ring. Qed.

Lemma Cx_div_scale (c : R) (a w : Cx.C) :
  Cx.div (Cx.scale c a) w = Cx.scale c (Cx.div a w).
Proof.
  unfold Cx.div, Cx.scale; simpl. unfold Rdiv. f_equal; ring.
Qed.

Lemma zip_with_map_l {A A' B D : Type} (f : A' -> B -> D) (g : A -> A')
    (a : list A) :
  forall b, zip_with f (map g a) b = zip_with (fun x y => f (g x) y) a b.
Proof.
  induction a as [|x a IH]; intros [|y b]; simpl; auto.
  rewrite IH. reflexivity.
Qed.

Lemma map_zip_with {A B D E : Type} (f : A -> B -> D) (g : D -> E)
    (a : list A) :
  forall b, map g (zip_with f a b) = zip_with (fun x y => g (f x y)) a b.
Proof.
  induction a as [|x a IH]; intros [|y b]; simpl; auto.
  rewrite IH. reflexivity.
Qed.

Lemma zip_with_ext {A B D : Type} (f g : A -> B -> D) (a : list A) :
  (forall x y, f x y = g x y) ->
  forall b, zip_with f a b = zip_with g a b.
Proof.
  intros H. induction a as [|x a IH]; intros [|y b]; simpl; auto.
  rewrite H, IH. reflexivity.
Qed.

Lemma zip_div_scale (c : R) (a w : list Cx.C) :
  zip_with Cx.div (map (Cx.scale c) a) w
  = map (Cx.scale c) (zip_with Cx.div a w).
Proof.
  rewrite zip_with_map_l, map_zip_with.
  apply zip_with_ext. intros x y. apply Cx_div_scale.
Qed.

Lemma set_at_map {A : Type} (g : A -> A) (v : A) (l : list A) (i : nat) :
  g v = v -> set_at i v (map g l) = map g (set_at i v l).
Proof.
  intros Hv. unfold set_at.
  revert i. induction l as [|x l IH]; intros [|i]; simpl; auto.
  - rewrite Hv. reflexivity.
  - rewrite IH. reflexivity.
Qed.

Lemma nth_map_default {A B : Type} (f : A -> B) (d : A) (d' : B)
    (l : list A) :
  f d = d' -> forall k, nth k (map f l) d' = f (nth k l d).
Proof.
  intros <-. intros k. apply map_nth.
Qed.

Lemma sum_scale (c : R) (f : nat -> R) (l : list nat) :
  fold_right Rplus 0 (map (fun k => c * f k) l)
  = c * fold_right Rplus 0 (map f l).
Proof.
  induction l as [|k l IH]; simpl.
  - ring.
  - rewrite IH. ring.
Qed.

Lemma irfft_sample_scale (c : R) (X : list Cx.C) (n t : nat) :
  irfft_sample (map (Cx.scale c) X) n t = c * irfft_sample X n t.
Proof.
  unfold irfft_sample. cbv zeta.
  assert (Hb : forall k, nth k (map (Cx.scale c) X) Cx.zero
                         = Cx.scale c (nth k X Cx.zero)).
  { intros k. apply nth_map_default, Cx_scale_zero. }
  rewrite !Hb.
  rewrite (map_ext
             (fun k =>
                Cx.re (nth k (map (Cx.scale c) X) Cx.zero)
                * cos (2 * PI * INR t * INR k / INR n)
                - Cx.im (nth k (map (Cx.scale c) X) Cx.zero)
                  * sin (2 * PI * INR t * INR k / INR n))
             (fun k =>
                c * (Cx.re (nth k X Cx.zero)
                     * cos (2 * PI * INR t * INR k / INR n)
                     - Cx.im (nth k X Cx.zero)
                       * sin (2 * PI * INR t * INR k / INR n)))).
  2:{ intros k. rewrite Hb. unfold Cx.scale; simpl. ring. }
  rewrite sum_scale.
  destruct (Nat.eqb (n mod 2) 0); unfold Cx.scale; simpl; unfold Rdiv; ring.
Qed.

Lemma np_irfft_scale (c : R) (X : list Cx.C) (n : nat) :
  np_irfft (map (Cx.scale c) X) n
  = match np_irfft X n with
    | Ok x => Ok (map (Rmult c) x)
    | Raise e => Raise e
    end.
Proof.
  unfold np_irfft. destruct (Nat.eqb n 0); [reflexivity|].
  f_equal. rewrite map_map. apply map_ext. intros t.
  apply irfft_sample_scale.
Qed.

Lemma np_sum_scale (c : R) (l : list R) :
  np_sum (map (Rmult c) l) = c * np_sum l.
Proof.
  induction l as [|x l IH]; simpl.
  - ring.
  - rewrite IH. ring.
Qed.

Lemma np_mean_scale (c : R) (l : list R) :
  np_mean (map (Rmult c) l) = c * np_mean l.
Proof.
  unfold np_mean. rewrite np_sum_scale, length_map. unfold Rdiv. ring.
Qed.

Lemma center_scale (c : R) (l : list R) :
  map (fun v => v - np_mean (map (Rmult c) l)) (map (Rmult c) l)
  = map (Rmult c) (map (fun v => v - np_mean l) l).
Proof.
  rewrite np_mean_scale, !map_map. apply map_ext. intros x. ring.
Qed.

Lemma assign_prefix_scale (c : R) (dst src : list R) (k : nat) :
  assign_prefix (map (Rmult c) dst) k (map (Rmult c) src)
  = match assign_prefix dst k src with
    | Ok l => Ok (map (Rmult c) l)
    | Raise e => Raise e
    end.
Proof.
  unfold assign_prefix. rewrite !length_map.
  destruct (Nat.eqb (length src) (Nat.min k (length dst))).
  - rewrite map_app, skipn_map. reflexivity.
  - destruct src as [|x [|x' src]]; simpl; try reflexivity.
    rewrite map_app, skipn_map, map_repeat. reflexivity.
Qed.

Lemma assign_prefix_zeros_scale (c : R) (P k : nat) (src : list R) :
  assign_prefix (repeat 0 P) k (map (Rmult c) src)
  = match assign_prefix (repeat 0 P) k src with
    | Ok l => Ok (map (Rmult c) l)
    | Raise e => Raise e
    end.
Proof.
  assert (E : repeat 0 P = map (Rmult c) (repeat 0 P)).
  { rewrite map_repeat. f_equal. ring. }
  rewrite E at 1. apply assign_prefix_scale.
Qed.

(** The integrator is homogeneous: multiplying the acceleration by [c]
    multiplies the velocity and the displacement by [c] (so a change of
    unit may be made before or after the integration, and a zero record
    integrates to zero); a rejected input stays rejected. *)
Theorem integrate_fft_padded_scales
    (data : list R) (rate : R) (pad_factor : Z) (c : R) :
  integrate_fft_padded (map (Rmult c) data) rate pad_factor
  = match integrate_fft_padded data rate pad_factor with
    | Ok (velocity, displacement) =>
        Ok (map (Rmult c) velocity, map (Rmult c) displacement)
    | Raise e => Raise e
    end.
Proof.
  unfold integrate_fft_padded, integrate_fft_padded_steps. cbv zeta.
  rewrite length_map.
  destruct (py_div 1 rate) as [dt|e]; [cbn [bind] | reflexivity].
  unfold np_zeros.
  destruct (Z.ltb (pad_factor * Z.of_nat (length data)) 0);
    [reflexivity | cbn [bind]].
  set (P := Z.to_nat (pad_factor * Z.of_nat (length data))).
  rewrite assign_prefix_zeros_scale.
  destruct (assign_prefix (repeat 0 P) (length data) data) as [padded|e];
    [cbn [bind] | reflexivity].
  rewrite length_map, np_rfft_scale.
  destruct (np_rfft padded (length padded)) as [fft_acc|e];
    [cbn [bind] | reflexivity].
  destruct (np_rfftfreq P dt) as [freq|e]; [cbn [bind] | reflexivity].
  set (i_omega := map (fun w => Cx.mul Cx.j (Cx.of_R w))
                      (set_at 0 1 (map (fun f => 2 * PI * f) freq))).
  rewrite !zip_div_scale.
  rewrite !(set_at_map (Cx.scale c)) by apply Cx_scale_zero.
  rewrite !np_irfft_scale.
  destruct (np_irfft (set_at 0 Cx.zero (zip_with Cx.div fft_acc i_omega)) P)
    as [vp|e]; [cbn [bind] | reflexivity].
  destruct (np_irfft
              (set_at 0 Cx.zero
                 (zip_with Cx.div (zip_with Cx.div fft_acc i_omega) i_omega))
              P) as [dp|e]; [cbn [bind] | reflexivity].
  cbn [ig_velocity ig_displacement].
  rewrite !firstn_map, !center_scale. reflexivity.
Qed.

(** ** SDOF transfer function *)

Lemma sdof_transfer_function_nth (freq : list R) (omega_n h : R) (k : nat) :
  (k < length freq)%nat ->
  nth k (sdof_transfer_function freq omega_n h) Cx.zero
  = let omega := 2 * PI * nth k freq 0 in
    Cx.div (Cx.of_R (-1))
           (Cx.add (Cx.of_R (omega_n * omega_n - omega * omega))
                   (Cx.scale (h * omega_n * omega) (Cx.mk 0 2))).
Proof.
  intros Hk. unfold sdof_transfer_function.
  rewrite (nth_map_in_range _ 0 Cx.zero) by exact Hk. reflexivity.
Qed.

(** The transfer function has one value per frequency.  For a non-zero
    natural frequency [omega_n] and damping [h] its value at frequency zero
    is the static response [-1/omega_n^2], its value at resonance
    ([2 pi f = omega_n]) is [i / (2 h omega_n^2)], and so the modulus at
    resonance is [1/(2|h|)] times the static modulus. *)
Theorem sdof_static_and_resonant_response
    (freq : list R) (omega_n h : R) (k : nat) :
  omega_n <> 0 -> h <> 0 -> (k < length freq)%nat ->
  let H := sdof_transfer_function freq omega_n h in
  let H_static := Cx.mk (- / (omega_n * omega_n)) 0 in
  let H_resonant := Cx.mk 0 (/ (2 * h * omega_n * omega_n)) in
  length H = length freq /\
  (nth k freq 0 = 0 -> nth k H Cx.zero = H_static) /\
  (nth k freq 0 = omega_n / (2 * PI) -> nth k H Cx.zero = H_resonant) /\
  Cx.abs H_resonant = / (2 * Rabs h) * Cx.abs H_static.
Proof.
  intros Hw Hh Hk H H_static H_resonant.
  assert (HPI : PI <> 0) by apply PI_neq0.
  split; [unfold H, sdof_transfer_function; apply length_map|].
  split; [|split].
  - intros E. unfold H. rewrite sdof_transfer_function_nth by exact Hk.
    rewrite E. cbv zeta. unfold H_static, Cx.div, Cx.add, Cx.of_R, Cx.scale,
      Cx.norm2; simpl.
    f_equal; field; exact Hw.
  - intros E. unfold H. rewrite sdof_transfer_function_nth by exact Hk.
    rewrite E. cbv zeta. unfold H_resonant, Cx.div, Cx.add, Cx.of_R,
      Cx.scale, Cx.norm2; simpl.
    assert (Hq : 0 < h * omega_n * omega_n * 2 * (h * omega_n * omega_n * 2)).
    { apply Rsqr_pos_lt.
      repeat apply Rmult_integral_contrapositive_currified;
        try assumption; lra. }
    f_equal; field; repeat split; try assumption; lra.
  - unfold H_resonant, H_static, Cx.abs, Cx.norm2; simpl.
    assert (Hww : 0 < omega_n * omega_n) by nra.
    replace (0 * 0 + / (2 * h * omega_n * omega_n)
                     * / (2 * h * omega_n * omega_n))
      with (Rsqr (/ (2 * h * omega_n * omega_n))) by (unfold Rsqr; ring).
    replace (- / (omega_n * omega_n) * - / (omega_n * omega_n) + 0 * 0)
      with (Rsqr (/ (omega_n * omega_n))) by (unfold Rsqr; ring).
    rewrite !sqrt_Rsqr_abs.
    rewrite (Rabs_pos_eq (/ (omega_n * omega_n)))
      by (left; apply Rinv_0_lt_compat, Hww).
    replace (2 * h * omega_n * omega_n) with (2 * h * (omega_n * omega_n))
      by ring.
    rewrite Rinv_mult, Rabs_mult.
    rewrite (Rabs_pos_eq (/ (omega_n * omega_n)))
      by (left; apply Rinv_0_lt_compat, Hww).
    rewrite Rabs_inv, Rabs_mult, (Rabs_pos_eq 2) by lra.
    reflexivity.
Qed.

Lemma sdof_static_and_resonant_response_witness :
  nth 0 (sdof_transfer_function [0; 1 / (2 * PI)] 1 (1 / 20)) Cx.zero
  = Cx.mk (- / (1 * 1)) 0 /\
  nth 1 (sdof_transfer_function [0; 1 / (2 * PI)] 1 (1 / 20)) Cx.zero
  = Cx.mk 0 (/ (2 * (1 / 20) * 1 * 1)).
Proof.
  split.
  - refine (proj1 (proj2 (sdof_static_and_resonant_response
                            [0; 1 / (2 * PI)] 1 (1 / 20) 0 _ _ _)) _).
    + lra.
    + lra.
    + simpl. lia.
    + reflexivity.
  - refine (proj1 (proj2 (proj2 (sdof_static_and_resonant_response
                            [0; 1 / (2 * PI)] 1 (1 / 20) 1 _ _ _))) _).
    + lra.
    + lra.
    + simpl. lia.
    + reflexivity.
Defined.

(** ** Response computation: outcome, array shapes, scaling *)

Lemma np_max_abs_nonneg (l : list R) (m : R) :
  np_max (np_abs l) = Ok m -> 0 <= m.
Proof.
  intros H. apply np_max_in in H. unfold np_abs in H.
  apply in_map_iff in H. destruct H as (x & <- & _). apply Rabs_pos.
Qed.

Lemma calculate_response_fft_nonneg
    (acc : list R) (dt period h sd sv sa : R) :
  calculate_response_fft acc dt period h = Ok (sd, sv, sa) ->
  0 <= sd /\ 0 <= sv /\ 0 <= sa.
Proof.
  unfold calculate_response_fft.
  destruct (Req_EM_T period 0) as [_ | _]; intros H.
  - apply bind_ok in H. destruct H as (m & Hm & H).
    injection H as <- <- <-.
    split; [lra|]. split; [lra|]. apply (np_max_abs_nonneg _ _ Hm).
  - apply bind_ok in H. destruct H as (n_fft & _ & H).
    apply bind_ok in H. destruct H as (acc_fft & _ & H).
    apply bind_ok in H. destruct H as (freq & _ & H).
    destruct (response_spectra acc_fft freq (2 * PI / period) h)
      as [[disp_fft vel_fft] abs_acc_fft].
    apply bind_ok in H. destruct H as (d & _ & H).
    apply bind_ok in H. destruct H as (v & _ & H).
    apply bind_ok in H. destruct H as (a & _ & H).
    apply bind_ok in H. destruct H as (m1 & Hm1 & H).
    apply bind_ok in H. destruct H as (m2 & Hm2 & H).
    apply bind_ok in H. destruct H as (m3 & Hm3 & H).
    injection H as <- <- <-.
    repeat split; eapply np_max_abs_nonneg; eassumption.
Qed.

Lemma calculate_response_fft_zero_dt (acc : list R) (period h : R) :
  acc <> [] -> period <> 0 ->
  calculate_response_fft acc 0 period h = Raise ZeroDivisionError.
Proof.
  intros Hne Hp. apply nonempty_length in Hne.
  unfold calculate_response_fft.
  destruct (Req_EM_T period 0) as [E | _]; [contradiction|].
  rewrite (fft_length_ok _ Hne). cbn [bind].
  destruct (np_rfft_ok acc (2 ^ (Nat.log2_up (length acc) + 1)))
    as (bins & -> & _).
  { pose proof (pow2_log2_up_bounds _ Hne). lia. }
  cbn [bind]. unfold np_rfftfreq.
  destruct (Req_EM_T _ 0) as [_ | N]; [reflexivity|].
  exfalso. apply N. ring.
Qed.

Lemma sdof_denominator_nonzero (omega_n h omega : R) :
  h <> 0 -> omega_n <> 0 ->
  Cx.norm2 (Cx.add (Cx.of_R (omega_n * omega_n - omega * omega))
                   (Cx.scale (h * omega_n * omega) (Cx.mk 0 2))) <> 0.
Proof.
  intros Hh Hw Hz. unfold Cx.norm2, Cx.add, Cx.of_R, Cx.scale in Hz.
  simpl in Hz.
  apply Rplus_sqr_eq_0 in Hz. destruct Hz as [Hre Him].
  assert (Ho : omega = 0).
  { assert (E : h * omega_n * omega = 0) by lra.
    apply Rmult_integral in E. destruct E as [E | E]; [|exact E].
    apply Rmult_integral in E. destruct E; contradiction. }
  subst omega.
  assert (E : omega_n * omega_n = 0) by lra.
  apply Rmult_integral in E. destruct E; contradiction.
Qed.

Lemma calculate_response_fft_cases (acc : list R) (dt period h : R) :
  match calculate_response_fft acc dt period h with
  | Ok (sd, sv, sa) =>
      acc <> [] /\ (period = 0 \/ dt <> 0) /\ 0 <= sd /\ 0 <= sv /\ 0 <= sa
  | Raise ValueError => acc = [] /\ period = 0
  | Raise OverflowError => acc = [] /\ period <> 0
  | Raise ZeroDivisionError => acc <> [] /\ period <> 0 /\ dt = 0
  end.
Proof.
  destruct acc as [|x acc].
  - unfold calculate_response_fft.
    destruct (Req_EM_T period 0) as [E | E]; simpl; auto.
  - assert (Hne : x :: acc <> []) by discriminate.
    destruct (Req_EM_T period 0) as [-> | Hp].
    + destruct (calculate_response_fft_zero (x :: acc) dt h Hne)
        as (sa & E & Hsa).
      rewrite E. repeat split; auto; try lra.
      apply (np_max_abs_nonneg _ _ Hsa).
    + destruct (Req_EM_T dt 0) as [-> | Hdt].
      * rewrite calculate_response_fft_zero_dt by assumption. auto.
      * destruct (calculate_response_fft_ok (x :: acc) dt period h Hne Hdt)
          as [[[sd sv] sa] E].
        rewrite E.
        destruct (calculate_response_fft_nonneg _ _ _ _ _ _ _ E)
          as (H1 & H2 & H3).
        repeat split; auto.
Qed.

(** For a non-zero damping ratio, the response of one oscillator is
    returned exactly for a non-empty series with either a zero period or a
    non-zero time step, and the three peak responses are then
    non-negative.  An empty series raises [ValueError] at period zero and
    [OverflowError] otherwise; a zero time step with a non-zero period
    raises [ZeroDivisionError].  With a non-zero damping ratio and period
    no denominator of the transfer function vanishes, at any frequency. *)
Theorem calculate_response_fft_outcome (acc : list R) (dt period h : R) :
  h <> 0 ->
  match calculate_response_fft acc dt period h with
  | Ok (sd, sv, sa) =>
      acc <> [] /\ (period = 0 \/ dt <> 0) /\ 0 <= sd /\ 0 <= sv /\ 0 <= sa
  | Raise ValueError => acc = [] /\ period = 0
  | Raise OverflowError => acc = [] /\ period <> 0
  | Raise ZeroDivisionError => acc <> [] /\ period <> 0 /\ dt = 0
  end /\
  (period <> 0 ->
   forall f,
     let omega_n := 2 * PI / period in
     let omega := 2 * PI * f in
     Cx.norm2 (Cx.add (Cx.of_R (omega_n * omega_n - omega * omega))
                      (Cx.scale (h * omega_n * omega) (Cx.mk 0 2))) <> 0).
Proof.
  intros Hh. split.
  - apply calculate_response_fft_cases.
  - intros Hp f. cbv zeta. apply sdof_denominator_nonzero; [exact Hh|].
    unfold Rdiv. apply Rmult_integral_contrapositive_currified.
    + pose proof PI_RGT_0. lra.
    + apply Rinv_neq_0_compat, Hp.
Qed.

Lemma calculate_response_fft_outcome_witness :
  exists sd sv sa,
    calculate_response_fft series_tie 1 1 (1 / 20) = Ok (sd, sv, sa) /\
    0 <= sd /\ 0 <= sv /\ 0 <= sa.
Proof.
  destruct (calculate_response_fft_outcome series_tie 1 1 (1 / 20)) as [H _].
  - lra.
  - destruct (calculate_response_fft series_tie 1 1 (1 / 20))
      as [[[sd sv] sa] | e].
    + exists sd, sv, sa. destruct H as (_ & _ & H1 & H2 & H3). auto.
    + exfalso. destruct e.
      * destruct H as [E _]. discriminate E.
      * destruct H as (_ & _ & E). lra.
      * destruct H as [E _]. discriminate E.
Defined.

Lemma calculate_response_spectrum_spec
    (acc : list R) (dt h : R) (periods : list R) :
  acc <> [] -> dt <> 0 ->
  exists r,
    calculate_response_spectrum acc dt periods h = Ok r /\
    length (SD r) = length periods /\ length (SV r) = length periods /\
    length (SA r) = length periods /\ length (pSV r) = length periods /\
    forall i, (i < length periods)%nat ->
      let T := nth i periods 0 in
      calculate_response_fft acc dt T h
      = Ok (nth i (SD r) 0, nth i (SV r) 0, nth i (SA r) 0) /\
      0 <= nth i (SD r) 0 /\ 0 <= nth i (SV r) 0 /\ 0 <= nth i (SA r) 0 /\
      (0 < T -> nth i (pSV r) 0 = 2 * PI / T * nth i (SD r) 0) /\
      (T <= 0 -> nth i (pSV r) 0 = 0) /\
      0 <= nth i (pSV r) 0.
Proof.
  intros Hne Hdt.
  destruct (response_loop_ok acc dt h periods Hne Hdt) as [rs Hrs].
  destruct (response_loop_nth _ _ _ _ _ Hrs) as [Hlen Hnth].
  eexists. split.
  { unfold calculate_response_spectrum. rewrite Hrs. reflexivity. }
  cbn [SD SV SA pSV].
  assert (Lpsv : length (pseudo_velocity periods
                           (map (fun r => fst (fst r)) rs))
                 = length periods).
  { unfold pseudo_velocity. rewrite zip_with_length, length_map. lia. }
  rewrite !length_map.
  split; [exact Hlen|]. split; [exact Hlen|]. split; [exact Hlen|].
  split; [exact Lpsv|].
  intros i Hi. cbv zeta. set (T := nth i periods 0).
  assert (Hi' : (i < length rs)%nat) by lia.
  rewrite !(nth_map_in_range _ (0, 0, 0)) by exact Hi'.
  specialize (Hnth i Hi). fold T in Hnth.
  destruct (nth i rs (0, 0, 0)) as [[sd sv] sa] eqn:Ers. cbn [fst snd].
  destruct (calculate_response_fft_nonneg _ _ _ _ _ _ _ Hnth)
    as (H1 & H2 & H3).
  assert (Hpsv : nth i (pseudo_velocity periods
                          (map (fun r => fst (fst r)) rs)) 0
                 = if Rlt_dec 0 T then 2 * PI / T * sd else 0).
  { unfold pseudo_velocity.
    rewrite (nth_zip_with _ 0 0) by (rewrite ?length_map; lia).
    rewrite (nth_map_in_range _ (0, 0, 0)) by exact Hi'.
    rewrite Ers. reflexivity. }
  rewrite Hpsv.
  split; [exact Hnth|]. split; [exact H1|]. split; [exact H2|].
  split; [exact H3|].
  destruct (Rlt_dec 0 T) as [HT | HT].
  - split; [reflexivity|]. split; [lra|].
    apply Rmult_le_pos; [|exact H1].
    apply Rmult_le_pos; [|left; apply Rinv_0_lt_compat, HT].
    pose proof PI_RGT_0. lra.
  - split; [intros; lra|]. split; [reflexivity | lra].
Qed.

(** For a non-empty series, a non-zero time step and a non-zero damping
    ratio the spectrum is returned for every period grid.  Its four arrays
    have the length of the grid; at each index the triple [(SD, SV, SA)] is
    the response of the oscillator of that period and is non-negative; the
    pseudo-velocity is [(2 pi / T) SD] at a positive period [T] and zero at
    any other.  No denominator of the transfer function vanishes at a
    non-zero period. *)
Theorem response_spectrum_arrays
    (acc : list R) (dt h : R) (periods : list R) :
  acc <> [] -> dt <> 0 -> h <> 0 ->
  (exists r,
    calculate_response_spectrum acc dt periods h = Ok r /\
    length (SD r) = length periods /\ length (SV r) = length periods /\
    length (SA r) = length periods /\ length (pSV r) = length periods /\
    forall i, (i < length periods)%nat ->
      let T := nth i periods 0 in
      calculate_response_fft acc dt T h
      = Ok (nth i (SD r) 0, nth i (SV r) 0, nth i (SA r) 0) /\
      0 <= nth i (SD r) 0 /\ 0 <= nth i (SV r) 0 /\ 0 <= nth i (SA r) 0 /\
      (0 < T -> nth i (pSV r) 0 = 2 * PI / T * nth i (SD r) 0) /\
      (T <= 0 -> nth i (pSV r) 0 = 0) /\
      0 <= nth i (pSV r) 0) /\
  (forall T f,
     In T periods -> T <> 0 ->
     let omega_n := 2 * PI / T in
     let omega := 2 * PI * f in
     Cx.norm2 (Cx.add (Cx.of_R (omega_n * omega_n - omega * omega))
                      (Cx.scale (h * omega_n * omega) (Cx.mk 0 2))) <> 0).
Proof.
  intros Hne Hdt Hh. split.
  - exact (calculate_response_spectrum_spec acc dt h periods Hne Hdt).
  - intros T f _ HT. cbv zeta. apply sdof_denominator_nonzero; [exact Hh|].
    unfold Rdiv. apply Rmult_integral_contrapositive_currified.
    + pose proof PI_RGT_0. lra.
    + apply Rinv_neq_0_compat, HT.
Qed.

Lemma response_spectrum_arrays_witness :
  exists r,
    calculate_response_spectrum series_tie 1 [1; 0] (1 / 20) = Ok r /\
    length (SD r) = 2%nat /\ length (pSV r) = 2%nat /\
    nth 0 (pSV r) 0 = 2 * PI / 1 * nth 0 (SD r) 0 /\
    nth 1 (pSV r) 0 = 0.
Proof.
  destruct (response_spectrum_arrays series_tie 1 (1 / 20) [1; 0])
    as [(r & Hr & L1 & _ & _ & L4 & Hall) _].
  - discriminate.
  - lra.
  - lra.
  - exists r. split; [exact Hr|]. split; [exact L1|]. split; [exact L4|].
    split.
    + destruct (Hall 0%nat) as (_ & _ & _ & _ & Hp & _); [simpl; lia|].
      apply Hp. simpl. lra.
    + destruct (Hall 1%nat) as (_ & _ & _ & _ & _ & Hz & _); [simpl; lia|].
      apply Hz. simpl. lra.
Defined.

Lemma Cx_mul_scale_l (c : R) (a b : Cx.C) :
  Cx.mul (Cx.scale c a) b = Cx.scale c (Cx.mul a b).
Proof. unfold Cx.mul, Cx.scale; simpl. f_equal; ring. Qed.

Lemma Cx_mul_scale_r (c : R) (a b : Cx.C) :
  Cx.mul a (Cx.scale c b) = Cx.scale c (Cx.mul a b).
Proof. unfold Cx.mul, Cx.scale; simpl. f_equal; ring. Qed.

Lemma Cx_scale_comm (k c : R) (a : Cx.C) :
  Cx.scale k (Cx.scale c a) = Cx.scale c (Cx.scale k a).
Proof. unfold Cx.scale; simpl. f_equal; ring. Qed.

Lemma Cx_add_scale (c : R) (a b : Cx.C) :
  Cx.add (Cx.scale c a) (Cx.scale c b) = Cx.scale c (Cx.add a b).
Proof. unfold Cx.add, Cx.scale; simpl. f_equal; ring. Qed.

Lemma zip_with_map_r {A B B' D : Type} (f : A -> B' -> D) (g : B -> B')
    (a : list A) :
  forall b, zip_with f a (map g b) = zip_with (fun x y => f x (g y)) a b.
Proof.
  induction a as [|x a IH]; intros [|y b]; simpl; auto.
  rewrite IH. reflexivity.
Qed.

Lemma response_spectra_scale
    (c : R) (acc_fft : list Cx.C) (freq : list R) (omega_n h : R) :
  response_spectra (map (Cx.scale c) acc_fft) freq omega_n h
  = let '(d, v, a) := response_spectra acc_fft freq omega_n h in
    (map (Cx.scale c) d, map (Cx.scale c) v, map (Cx.scale c) a).
Proof.
  unfold response_spectra. cbv zeta.
  set (Hd := sdof_transfer_function freq omega_n h).
  set (omega := map (fun f => 2 * PI * f) freq).
  assert (Ed : zip_with Cx.mul (map (Cx.scale c) acc_fft) Hd
               = map (Cx.scale c) (zip_with Cx.mul acc_fft Hd)).
  { rewrite zip_with_map_l, map_zip_with.
    apply zip_with_ext. intros x y. apply Cx_mul_scale_l. }
  rewrite Ed.
  set (disp := zip_with Cx.mul acc_fft Hd).
  assert (Ev : zip_with (fun w d => Cx.mul (Cx.mul Cx.j (Cx.of_R w)) d)
                 omega (map (Cx.scale c) disp)
               = map (Cx.scale c)
                   (zip_with
                      (fun w d => Cx.mul (Cx.mul Cx.j (Cx.of_R w)) d)
                      omega disp)).
  { rewrite zip_with_map_r, map_zip_with.
    apply zip_with_ext. intros x y. apply Cx_mul_scale_r. }
  assert (Er : zip_with (fun w d => Cx.scale (- (w * w)) d)
                 omega (map (Cx.scale c) disp)
               = map (Cx.scale c)
                   (zip_with (fun w d => Cx.scale (- (w * w)) d)
                      omega disp)).
  { rewrite zip_with_map_r, map_zip_with.
    apply zip_with_ext. intros x y. apply Cx_scale_comm. }
  rewrite Ev, Er.
  f_equal.
  rewrite zip_with_map_l, zip_with_map_r, map_zip_with.
  apply zip_with_ext. intros x y. apply Cx_add_scale.
Qed.

(** The response computation is homogeneous: multiplying the acceleration
    by [c] multiplies the three peak responses by [|c|]; a rejected input
    stays rejected with the same exception. *)
Theorem calculate_response_fft_scales (acc : list R) (dt period h c : R) :
  calculate_response_fft (map (Rmult c) acc) dt period h
  = match calculate_response_fft acc dt period h with
    | Ok (sd, sv, sa) => Ok (Rabs c * sd, Rabs c * sv, Rabs c * sa)
    | Raise e => Raise e
    end.
Proof.
  unfold calculate_response_fft.
  destruct (Req_EM_T period 0) as [_ | _].
  - rewrite np_abs_scale, np_max_scale by apply Rabs_pos.
    destruct (np_max (np_abs acc)) as [m|e]; [cbn [bind] | reflexivity].
    rewrite !Rmult_0_r. reflexivity.
  - cbv zeta. rewrite length_map.
    destruct (fft_length (length acc)) as [n_fft|e];
      [cbn [bind] | reflexivity].
    rewrite np_rfft_scale.
    destruct (np_rfft acc n_fft) as [acc_fft|e]; [cbn [bind] | reflexivity].
    destruct (np_rfftfreq n_fft dt) as [freq|e]; [cbn [bind] | reflexivity].
    rewrite response_spectra_scale.
    destruct (response_spectra acc_fft freq (2 * PI / period) h)
      as [[disp_fft vel_fft] abs_acc_fft].
    rewrite !np_irfft_scale.
    destruct (np_irfft disp_fft n_fft) as [d|e]; [cbn [bind] | reflexivity].
    destruct (np_irfft vel_fft n_fft) as [v|e]; [cbn [bind] | reflexivity].
    destruct (np_irfft abs_acc_fft n_fft) as [a|e];
      [cbn [bind] | reflexivity].
    rewrite !firstn_map, !np_abs_scale.
    rewrite !np_max_scale by apply Rabs_pos.
    destruct (np_max (np_abs (firstn (length acc) d))) as [sd|e];
      [cbn [bind] | reflexivity].
    destruct (np_max (np_abs (firstn (length acc) v))) as [sv|e];
      [cbn [bind] | reflexivity].
    destruct (np_max (np_abs (firstn (length acc) a))) as [sa|e];
      [cbn [bind] | reflexivity].
    reflexivity.
Qed.

(** ** The period grid *)

Lemma set_at_nth {A : Type} (v d : A) (l : list A) (i k : nat) :
  (i < length l)%nat ->
  nth k (set_at i v l) d = if Nat.eqb k i then v else nth k l d.
Proof.
  intros Hi. unfold set_at.
  destruct (Nat.eqb_spec k i) as [-> | Hne].
  - apply update_at_nth_same. exact Hi.
  - apply update_at_nth_other. auto.
Qed.

Lemma np_linspace_unfold (a b : R) (d : nat) :
  np_linspace a b (S (S d))
  = set_at (S d) b
      (map (fun i => INR i * ((b - a) / INR (S d)) + a) (seq 0 (S (S d)))).
Proof.
  unfold np_linspace. rewrite Nat.sub_1_r. reflexivity.
Qed.

Lemma np_linspace_length (a b : R) (num : nat) :
  length (np_linspace a b num) = num.
Proof.
  destruct num as [|[|d]]; try reflexivity.
  rewrite np_linspace_unfold, set_at_length, length_map, length_seq.
  reflexivity.
Qed.

Lemma np_linspace_nth (a b : R) (d k : nat) :
  (k <= S d)%nat ->
  nth k (np_linspace a b (S (S d))) 0
  = if Nat.eqb k (S d) then b else INR k * ((b - a) / INR (S d)) + a.
Proof.
  intros Hk. rewrite np_linspace_unfold.
  rewrite set_at_nth by (rewrite length_map, length_seq; lia).
  destruct (Nat.eqb k (S d)); [reflexivity|].
  rewrite (nth_map_in_range _ 0%nat) by (rewrite length_seq; lia).
  rewrite seq_nth by lia. reflexivity.
Qed.

Lemma np_linspace_increasing (a b : R) (d i k : nat) :
  a < b -> (i < k <= S d)%nat ->
  nth i (np_linspace a b (S (S d))) 0 < nth k (np_linspace a b (S (S d))) 0.
Proof.
  intros Hab [Hik Hk].
  rewrite !np_linspace_nth by lia.
  assert (HN : 0 < INR (S d)) by (apply lt_0_INR; lia).
  set (N := INR (S d)) in *.
  set (s := (b - a) / N).
  assert (Hs : 0 < s) by (unfold s; apply Rdiv_lt_0_compat; lra).
  assert (HNs : N * s = b - a) by (unfold s; field; lra).
  destruct (Nat.eqb_spec i (S d)) as [E | _]; [lia|].
  pose proof (lt_INR _ _ Hik) as Hlt.
  destruct (Nat.eqb_spec k (S d)) as [E | Hne].
  - subst k. fold N in Hlt. nra.
  - nra.
Qed.

Lemma ln_10_pos : 0 < ln 10.
Proof.
  rewrite <- ln_1. apply ln_increasing; lra.
Qed.

Lemma np_log10_increasing (x y : R) :
  0 < x -> x < y -> np_log10 x < np_log10 y.
Proof.
  intros Hx Hxy. unfold np_log10, Rlog.
  apply Rmult_lt_compat_r; [apply Rinv_0_lt_compat, ln_10_pos|].
  apply ln_increasing; assumption.
Qed.

Lemma pow10_log10 (x : R) : 0 < x -> Rpower 10 (np_log10 x) = x.
Proof.
  intros Hx. unfold np_log10. apply Rpower_Rlog; lra.
Qed.

Lemma period_grid_nth (k : nat) :
  (k <= 99)%nat ->
  nth k period_grid 0
  = Rpower 10 (nth k (np_linspace (np_log10 PERIOD_MIN)
                                  (np_log10 PERIOD_MAX) PERIOD_NUM) 0).
Proof.
  intros Hk. unfold period_grid, np_logspace.
  apply (nth_map_in_range _ 0 0).
  rewrite np_linspace_length. unfold PERIOD_NUM. lia.
Qed.

(** The period grid of the response spectrum has 100 periods, all strictly
    positive; it starts at 0.02 s, ends at 10 s and increases strictly.  So
    the zero-period case of the response computation is never taken for
    it, and the pseudo-velocity is [(2 pi / T) SD] at all its periods. *)
Theorem period_grid_positive_increasing :
  length period_grid = 100%nat /\
  (forall T, In T period_grid -> 0 < T) /\
  nth 0 period_grid 0 = PERIOD_MIN /\
  nth 99 period_grid 0 = PERIOD_MAX /\
  (forall i k, (i < k <= 99)%nat ->
               nth i period_grid 0 < nth k period_grid 0).
Proof.
  split.
  { unfold period_grid, np_logspace.
    rewrite length_map, np_linspace_length. reflexivity. }
  split.
  { intros T HT. unfold period_grid, np_logspace in HT.
    apply in_map_iff in HT. destruct HT as (y & <- & _).
    unfold Rpower. apply exp_pos. }
  split.
  { rewrite period_grid_nth by lia. unfold PERIOD_NUM.
    rewrite (np_linspace_nth _ _ 98 0) by lia.
    change (Nat.eqb 0 99) with false. cbv iota.
    change (INR 0) with 0. rewrite Rmult_0_l, Rplus_0_l.
    apply pow10_log10. unfold PERIOD_MIN. lra. }
  split.
  { rewrite period_grid_nth by lia. unfold PERIOD_NUM.
    rewrite (np_linspace_nth _ _ 98 99) by lia.
    rewrite Nat.eqb_refl.
    apply pow10_log10. unfold PERIOD_MAX. lra. }
  intros i k Hik.
  rewrite !period_grid_nth by lia.
  apply Rpower_lt; [lra|].
  unfold PERIOD_NUM. apply (np_linspace_increasing _ _ 98 i k); [|lia].
  apply np_log10_increasing; unfold PERIOD_MIN, PERIOD_MAX; lra.
Qed.

(** ** The response table of one station *)

Lemma srss_same_length (a b : list R) :
  length a = length b ->
  srss a b = Ok (np_sqrt (zip_with Rplus (np_square a) (np_square b))).
Proof.
  intros H. unfold srss, np_add.
  rewrite broadcast_same_length by (rewrite !np_square_length; exact H).
  reflexivity.
Qed.

Lemma response_station_on_spec
    (periods ns ew ud : list R) (rate : R) :
  ns <> [] -> ew <> [] -> ud <> [] -> rate <> 0 ->
  exists t r_ns r_ew r_ud,
    response_station_on periods ns ew ud rate = Ok t /\
    calculate_response_spectrum ns (1 / rate) periods DAMPING_RATIO
    = Ok r_ns /\
    calculate_response_spectrum ew (1 / rate) periods DAMPING_RATIO
    = Ok r_ew /\
    calculate_response_spectrum ud (1 / rate) periods DAMPING_RATIO
    = Ok r_ud /\
    rt_period t = periods /\
    rt_NS t = SV r_ns /\ rt_EW t = SV r_ew /\ rt_UD t = SV r_ud /\
    length (rt_NS t) = length periods /\
    length (rt_EW t) = length periods /\
    length (rt_UD t) = length periods /\
    length (rt_H t) = length periods /\
    forall i, (i < length periods)%nat ->
      nth i (rt_H t) 0
      = sqrt (nth i (rt_NS t) 0 * nth i (rt_NS t) 0
              + nth i (rt_EW t) 0 * nth i (rt_EW t) 0) /\
      0 <= nth i (rt_NS t) 0 <= nth i (rt_H t) 0 /\
      0 <= nth i (rt_EW t) 0 <= nth i (rt_H t) 0 /\
      nth i (rt_H t) 0 <= nth i (rt_NS t) 0 + nth i (rt_EW t) 0.
Proof.
  intros Hns Hew Hud Hrate.
  pose proof (inv_rate_nonzero rate Hrate) as Hdt.
  destruct (calculate_response_spectrum_spec ns (1 / rate) DAMPING_RATIO
              periods Hns Hdt)
    as (r_ns & En & Ln1 & Ln2 & Ln3 & Ln4 & Hn).
  destruct (calculate_response_spectrum_spec ew (1 / rate) DAMPING_RATIO
              periods Hew Hdt)
    as (r_ew & Ee & Le1 & Le2 & Le3 & Le4 & He).
  destruct (calculate_response_spectrum_spec ud (1 / rate) DAMPING_RATIO
              periods Hud Hdt)
    as (r_ud & Eu & Lu1 & Lu2 & Lu3 & Lu4 & Hu).
  set (h_sv := np_sqrt (zip_with Rplus (np_square (SV r_ns))
                                        (np_square (SV r_ew)))).
  assert (Lh : length h_sv = length periods).
  { unfold h_sv, np_sqrt.
    rewrite length_map, zip_with_length, !np_square_length. lia. }
  exists {| rt_period := periods; rt_NS := SV r_ns; rt_EW := SV r_ew;
            rt_UD := SV r_ud; rt_H := h_sv |}, r_ns, r_ew, r_ud.
  split.
  { unfold response_station_on.
    rewrite (py_div_ok 1 rate Hrate). cbn [bind].
    rewrite En, Ee, Eu. cbn [bind].
    rewrite !srss_same_length by congruence. cbn [bind]. fold h_sv.
    rewrite data_frame_same_length; [reflexivity|].
    repeat constructor; congruence. }
  cbn [rt_period rt_NS rt_EW rt_UD rt_H].
  repeat (split; [first [assumption | reflexivity]|]).
  intros i Hi.
  destruct (Hn i Hi) as (_ & _ & Pn & _).
  destruct (He i Hi) as (_ & _ & Pe & _).
  assert (EH : nth i h_sv 0
               = sqrt (nth i (SV r_ns) 0 * nth i (SV r_ns) 0
                       + nth i (SV r_ew) 0 * nth i (SV r_ew) 0)).
  { unfold h_sv. apply nth_combined2; lia. }
  rewrite EH.
  split; [reflexivity|].
  pose proof (Rabs_le_sqrt2 (nth i (SV r_ns) 0) (nth i (SV r_ew) 0)) as B1.
  pose proof (Rabs_le_sqrt2 (nth i (SV r_ew) 0) (nth i (SV r_ns) 0)) as B2.
  rewrite (Rplus_comm (nth i (SV r_ew) 0 * nth i (SV r_ew) 0)) in B2.
  pose proof (sqrt2_le_sum (nth i (SV r_ns) 0) (nth i (SV r_ew) 0)) as B3.
  rewrite (Rabs_pos_eq _ Pn) in B1, B3.
  rewrite (Rabs_pos_eq _ Pe) in B2, B3.
  repeat split; assumption.
Qed.

(** For three non-empty components and a non-zero sampling rate the
    response table of a station is produced on the period grid: its period
    column is the grid and the NS, EW, UD and H columns have its 100 rows.
    The component columns are the velocity spectra, and at every period the
    horizontal column is the root of the sum of squares of the NS and EW
    values: at least each of them and at most their sum. *)
Theorem response_station_table (ns ew ud : list R) (rate : R) :
  ns <> [] -> ew <> [] -> ud <> [] -> rate <> 0 ->
  exists t r_ns r_ew r_ud,
    response_station ns ew ud rate = Ok t /\
    calculate_response_spectrum ns (1 / rate) period_grid DAMPING_RATIO
    = Ok r_ns /\
    calculate_response_spectrum ew (1 / rate) period_grid DAMPING_RATIO
    = Ok r_ew /\
    calculate_response_spectrum ud (1 / rate) period_grid DAMPING_RATIO
    = Ok r_ud /\
    rt_period t = period_grid /\
    rt_NS t = SV r_ns /\ rt_EW t = SV r_ew /\ rt_UD t = SV r_ud /\
    length (rt_NS t) = 100%nat /\ length (rt_EW t) = 100%nat /\
    length (rt_UD t) = 100%nat /\ length (rt_H t) = 100%nat /\
    forall i, (i < 100)%nat ->
      nth i (rt_H t) 0
      = sqrt (nth i (rt_NS t) 0 * nth i (rt_NS t) 0
              + nth i (rt_EW t) 0 * nth i (rt_EW t) 0) /\
      0 <= nth i (rt_NS t) 0 <= nth i (rt_H t) 0 /\
      0 <= nth i (rt_EW t) 0 <= nth i (rt_H t) 0 /\
      nth i (rt_H t) 0 <= nth i (rt_NS t) 0 + nth i (rt_EW t) 0.
Proof.
  intros Hns Hew Hud Hrate.
  assert (L : length period_grid = 100%nat).
  { unfold period_grid, np_logspace.
    rewrite length_map, np_linspace_length. reflexivity. }
  destruct (response_station_on_spec period_grid ns ew ud rate
              Hns Hew Hud Hrate)
    as (t & r_ns & r_ew & r_ud & Ht & En & Ee & Eu & Ep & E1 & E2 & E3
        & L1 & L2 & L3 & L4 & Hall).
  rewrite L in L1, L2, L3, L4, Hall.
  exists t, r_ns, r_ew, r_ud.
  unfold response_station. auto 20.
Qed.

Lemma response_station_table_witness :
  exists t,
    response_station series_tie series_two series_three 100 = Ok t /\
    rt_period t = period_grid /\
    length (rt_NS t) = 100%nat /\ length (rt_H t) = 100%nat.
Proof.
  destruct (response_station_table series_tie series_two series_three 100)
    as (t & _ & _ & _ & Ht & _ & _ & _ & Ep & _ & _ & _ & L1 & _ & _ & L4 & _).
  - discriminate.
  - discriminate.
  - discriminate.
  - lra.
  - exists t. auto.
Defined.

(** ** Links between the stages *)

(** The amplitude at frequency zero is the absolute value of the sum of
    the samples times the time step, that is the absolute mean of the
    series times its duration [n / rate]; it vanishes for a series of
    mean zero. *)
Theorem fourier_dc_amplitude_is_mean_times_duration
    (data : list R) (rate : R) :
  data <> [] -> 0 < rate ->
  exists freq amp,
    calculate_fourier_spectrum data rate = Ok (freq, amp) /\
    nth 0 amp 0 = Rabs (np_sum data) / rate /\
    nth 0 amp 0 = Rabs (np_mean data) * (INR (length data) / rate) /\
    (np_mean data = 0 -> nth 0 amp 0 = 0).
Proof.
  intros Hne Hrate.
  assert (Hr0 : rate <> 0) by lra.
  destruct (calculate_fourier_spectrum_spec data rate Hr0 Hne)
    as (freq & amp & Hc & _ & _ & Hnth).
  assert (Hn : 0 < INR (length data)).
  { apply lt_0_INR. apply nonempty_length in Hne. lia. }
  assert (E0 : nth 0 amp 0 = Rabs (np_sum data) / rate).
  { rewrite Hnth by lia. unfold single_sided_amplitude. cbn [Nat.eqb].
    rewrite dft_bin_dc, Cx_abs_real. field. exact Hr0. }
  assert (E1 : nth 0 amp 0
               = Rabs (np_mean data) * (INR (length data) / rate)).
  { rewrite E0. unfold np_mean, Rdiv.
    rewrite Rabs_mult, Rabs_inv, (Rabs_pos_eq (INR (length data))) by lra.
    field. split; lra. }
  exists freq, amp. split; [exact Hc|]. split; [exact E0|].
  split; [exact E1|].
  intros Hm. rewrite E1, Hm, Rabs_R0. ring.
Qed.

Lemma fourier_dc_amplitude_is_mean_times_duration_witness :
  exists freq amp,
    calculate_fourier_spectrum series_constant 100 = Ok (freq, amp) /\
    nth 0 amp 0 = Rabs (np_sum series_constant) / 100.
Proof.
  destruct (fourier_dc_amplitude_is_mean_times_duration series_constant 100)
    as (freq & amp & Hc & E & _).
  - discriminate.
  - lra.
  - exists freq, amp. split; [exact Hc | exact E].
Defined.

Lemma signed_peak_abs_is_max (S : list R) :
  S <> [] ->
  exists v, calc_signed_peak S = Ok v /\ np_max (np_abs S) = Ok (Rabs v).
Proof.
  intros Hne.
  destruct (calc_signed_peak_spec S Hne) as (i & Hi & Hv & Hmax).
  exists (nth i S 0). split; [exact Hv|].
  assert (Hne' : np_abs S <> []) by (destruct S; [congruence | discriminate]).
  assert (Hlen : length (np_abs S) = length S) by apply length_map.
  destruct (np_max_nonempty _ Hne') as [m Hm].
  rewrite Hm. f_equal. apply Rle_antisym.
  - destruct (In_nth _ _ 0 (np_max_in _ _ Hm)) as (k & Hk & <-).
    rewrite nth_np_abs. apply Hmax. lia.
  - apply (np_max_ge _ _ Hm). rewrite <- nth_np_abs.
    apply nth_In. lia.
Qed.

(** The spectral acceleration at period zero is the peak ground
    acceleration: the absolute value of the signed peak of the series,
    whatever the time step and the damping. *)
Theorem zero_period_acceleration_is_signed_peak (acc : list R) (dt h : R) :
  acc <> [] ->
  exists v,
    calc_signed_peak acc = Ok v /\
    calculate_response_fft acc dt 0 h = Ok (0, 0, Rabs v).
Proof.
  intros Hne.
  destruct (signed_peak_abs_is_max acc Hne) as (v & Hv & Hm).
  exists v. split; [exact Hv|].
  destruct (calculate_response_fft_zero acc dt h Hne) as (sa & E & Hsa).
  rewrite Hm in Hsa. injection Hsa as <-. exact E.
Qed.

Lemma zero_period_acceleration_is_signed_peak_witness :
  calc_signed_peak series_tie = Ok (-3) /\
  calculate_response_fft series_tie 1 0 (1 / 20) = Ok (0, 0, Rabs (-3)).
Proof.
  destruct (zero_period_acceleration_is_signed_peak series_tie 1 (1 / 20))
    as (v & Hv & E).
  - discriminate.
  - rewrite calc_signed_peak_tie in Hv. injection Hv as <-.
    split; [apply calc_signed_peak_tie | exact E].
Defined.
